(** * Verification of the text chunker: scripts/chunk_text.py

    A shallow embedding of [split_sentences] and [chunk_text] and the
    properties of sentence splitting, greedy packing and fixed-window
    splitting of oversized sentences.

    Python strings are sequences of Unicode code points: a string is a
    list of code points (type [N]).  Python integers are unbounded: [Z].
    The only exception the chunker can raise on string and integer
    arguments is the [ValueError] of [range] with a zero step, so fallible
    code returns a [result]. *)

From Stdlib Require Import Ascii String.
From Stdlib Require DecimalString DecimalN.
From Stdlib Require Import List ZArith NArith Bool Lia.
Import ListNotations.

Local Open Scope Z_scope.

(** ** Strings *)

Definition char := N.
Definition str := list char.

(** The code points of an ASCII literal, to write examples readably. *)
Definition lit (s : string) : str := map N_of_ascii (list_ascii_of_string s).

Definition SPACE : char := 32%N.

(** [str.isspace] on one code point, which is also what [\s] matches in
    [re] for a [str] pattern and what [str.strip()] and [str.split()]
    remove: CPython's [_PyUnicode_IsWhitespace]. *)
Definition isspace (c : char) : bool :=
  ((9 <=? c) && (c <=? 13) || (28 <=? c) && (c <=? 32)
   || (c =? 133) || (c =? 160) || (c =? 5760)
   || (8192 <=? c) && (c <=? 8202)
   || (c =? 8232) || (c =? 8233) || (c =? 8239) || (c =? 8287)
   || (c =? 12288))%N.

(** The character class [[.!?]] of the lookbehind. *)
Definition is_terminal (c : char) : bool :=
  ((c =? 46) || (c =? 33) || (c =? 63))%N.

(** Truth value of a Python sequence: [if xs:]. *)
Definition truthy {A} (xs : list A) : bool :=
  match xs with [] => false | _ :: _ => true end.

Definition len {A} (xs : list A) : Z := Z.of_nat (length xs).

(** [s.lstrip()], [s.rstrip()] and [s.strip()] without argument. *)
Fixpoint lstrip (s : str) : str :=
  match s with
  | [] => []
  | c :: r => if isspace c then lstrip r else s
  end.

Definition rstrip (s : str) : str := rev (lstrip (rev s)).

Definition strip (s : str) : str := rstrip (lstrip s).

(** [sep.join(xs)] with [sep = " "]. *)
Fixpoint join_sp (xs : list str) : str :=
  match xs with
  | [] => []
  | [x] => x
  | x :: r => x ++ SPACE :: join_sp r
  end.

(** Puts a character in front of the first piece of a list of pieces. *)
Definition cons_head (c : char) (ps : list str) : list str :=
  match ps with
  | [] => [[c]]
  | p :: r => (c :: p) :: r
  end.

(** [s.split()] without argument: the maximal runs of characters that
    are not whitespace, in order; no empty string is produced.  At a
    character that is not whitespace, the word ends here when the next
    character is whitespace or the string ends, and goes on otherwise. *)
Fixpoint split (s : str) : list str :=
  match s with
  | [] => []
  | c :: r =>
      if isspace c then split r
      else match r with
           | [] => [[c]]
           | c' :: _ => if isspace c' then [c] :: split r
                        else cons_head c (split r)
           end
  end.

(** ** The two regular expressions *)

(** [re.sub(r"\s+", " ", s)].  The scan goes left to right; [in_match]
    says that the previous character was consumed by the match under
    way.  [\s+] is greedy: a match starts at the first whitespace
    character of a run, where the replacement is written, and takes the
    whole run. *)
Fixpoint re_sub_from (in_match : bool) (s : str) : str :=
  match s with
  | [] => []
  | c :: r =>
      if isspace c
      then if in_match then re_sub_from true r
           else SPACE :: re_sub_from true r
      else c :: re_sub_from false r
  end.

Definition re_sub_ws (s : str) : str := re_sub_from false s.

(** The lookbehind [(?<=[.!?])] at a position whose previous character
    is [prev] ([None] at the start of the string). *)
Definition lookbehind (prev : option char) : bool :=
  match prev with
  | Some p => is_terminal p
  | None => false
  end.

(** [re.split(r"(?<=[.!?])\s+", s)].  [prev] is the character before
    the position of the scan and [in_match] says that it was consumed by
    the match under way.  A match starts at a whitespace character whose
    predecessor is one of [.!?] and takes the whole run of whitespace;
    the piece under construction ends where the match starts and the
    next piece starts where the match ends.  The string that remains
    after the last match is the last piece, also when it is empty. *)
Fixpoint re_split_from (prev : option char) (in_match : bool) (s : str)
  : list str :=
  match s with
  | [] => [[]]
  | c :: r =>
      if isspace c && (in_match || lookbehind prev)
      then if in_match then re_split_from (Some c) true r
           else [] :: re_split_from (Some c) true r
      else cons_head c (re_split_from (Some c) false r)
  end.

Definition re_split_terminal (s : str) : list str :=
  re_split_from None false s.

(** ** split_sentences *)

Definition normalize (text : str) : str := re_sub_ws (strip text).

Definition split_sentences (text : str) : list str :=
  let text := normalize text in
  if negb (truthy text) then []
  else re_split_terminal text.

(** ** Results and exceptions *)

Inductive result (A : Type) : Type :=
| Ok (a : A)
| ValueError.
Arguments Ok {A} a.
Arguments ValueError {A}.

Definition bind {A B} (m : result A) (f : A -> result B) : result B :=
  match m with
  | Ok a => f a
  | ValueError => ValueError
  end.

Notation "x <- m ;; k" := (bind m (fun x => k))
  (at level 61, m at next level, right associativity).

(** ** range and slices *)

(** The values of [range(start, stop, step)] for a positive step: [i],
    [i + step], ... while below [stop]. *)
Fixpoint range_up (fuel : nat) (i stop step : Z) : list Z :=
  match fuel with
  | O => []
  | S f => if i <? stop then i :: range_up f (i + step) stop step else []
  end.

(** And for a negative step: while above [stop]. *)
Fixpoint range_down (fuel : nat) (i stop step : Z) : list Z :=
  match fuel with
  | O => []
  | S f => if stop <? i then i :: range_down f (i + step) stop step else []
  end.

(** [range(start, stop, step)], iterated: a zero step raises
    [ValueError].  No range has more than [|stop - start|] values. *)
Definition range (start stop step : Z) : result (list Z) :=
  if step =? 0 then ValueError
  else if 0 <? step
       then Ok (range_up (Z.to_nat (stop - start)) start stop step)
       else Ok (range_down (Z.to_nat (start - stop)) start stop step).

(** A slice bound, as Python clamps it into [0 .. len]. *)
Definition clamp (n i : Z) : Z :=
  if i <? 0 then Z.max 0 (i + n) else Z.min i n.

(** [xs[i:j]]. *)
Definition slice {A} (xs : list A) (i j : Z) : list A :=
  let lo := clamp (len xs) i in
  let hi := clamp (len xs) j in
  firstn (Z.to_nat (hi - lo)) (skipn (Z.to_nat lo) xs).

(** ** chunk_text *)

(** The variables that the loop and the nested [flush] update. *)
Record state : Type := mkState {
  chunks : list str;
  current : list str;
  word_count : Z
}.

Definition init : state := mkState [] [] 0.

(** The nested function [flush]. *)
Definition flush (st : state) : state :=
  mkState
    (if truthy (current st)
     then chunks st ++ [strip (join_sp (current st))]
     else chunks st)
    [] 0.

(** The body of the inner loop over [range(0, len(words), max_words)]. *)
Definition emit_part (words : list str) (max_words : Z)
  (cs : list str) (i : Z) : list str :=
  let part := strip (join_sp (slice words i (i + max_words))) in
  if truthy part then cs ++ [part] else cs.

(** The inner loop: the windows of an oversized sentence appended to
    [cs]. *)
Definition emit_windows (words : list str) (max_words : Z) (cs : list str)
  : result (list str) :=
  idx <- range 0 (len words) max_words ;;
  Ok (fold_left (emit_part words max_words) idx cs).

(** The body of the loop over the sentences. *)
Definition step (min_words max_words : Z) (st : state) (sentence : str)
  : result state :=
  let words := split sentence in
  if len words >? max_words then
    let st := if truthy (current st) then flush st else st in
    cs <- emit_windows words max_words (chunks st) ;;
    Ok (mkState cs (current st) (word_count st))
  else
    let st :=
      if word_count st + len words >? max_words
      then if word_count st >=? min_words then flush st else flush st
      else st in
    Ok (mkState (chunks st) (current st ++ [sentence])
                (word_count st + len words)).

Fixpoint run_loop (min_words max_words : Z) (st : state)
  (sentences : list str) : result state :=
  match sentences with
  | [] => Ok st
  | s :: r =>
      st' <- step min_words max_words st s ;;
      run_loop min_words max_words st' r
  end.

(** What [chunk_text] does with the sentences: the loop, the last
    flush, and the chunks returned. *)
Definition pack (min_words max_words : Z) (sentences : list str)
  : result (list str) :=
  st <- run_loop min_words max_words init sentences ;;
  Ok (chunks (if truthy (current st) then flush st else st)).

Definition chunk_text (text : str) (min_words max_words : Z)
  : result (list str) :=
  pack min_words max_words (split_sentences text).

(** * Notions used in the statements *)

(** ** Words and well-formed strings *)

(** A character that is not whitespace. *)
Definition nonspace (c : char) : Prop := isspace c = false.

(** A word: what [split] produces. *)
Definition word (w : str) : Prop := w <> [] /\ Forall nonspace w.

(** Whether a string starts, and whether it ends, with whitespace. *)
Definition starts_ws (s : str) : bool :=
  match s with
  | [] => false
  | c :: _ => isspace c
  end.

Fixpoint ends_ws (s : str) : bool :=
  match s with
  | [] => false
  | [c] => isspace c
  | _ :: r => ends_ws r
  end.

(** A non-empty string whose words are separated by single spaces, with
    no whitespace at either end. *)
Definition wf (s : str) : Prop := join_sp (split s) = s /\ s <> [].

(** A string of whitespace only. *)
Definition all_ws (s : str) : Prop := Forall (fun c => isspace c = true) s.

(** The space that a collapsed trailing run of whitespace leaves. *)
Definition tail_sp (s : str) : str :=
  if ends_ws s && truthy (split s) then [SPACE] else [].

(** ** Sentences as groups of words *)

Fixpoint last_char (s : str) : option char :=
  match s with
  | [] => None
  | [c] => Some c
  | _ :: r => last_char r
  end.

(** A word that ends with one of [.!?]. *)
Definition ends_terminal (w : str) : bool := lookbehind (last_char w).

(** Puts a word in front of the first group. *)
Definition push_word (w : str) (gs : list (list str)) : list (list str) :=
  match gs with
  | [] => [[w]]
  | g :: r => (w :: g) :: r
  end.

(** The words of a normalised text, grouped into sentences: a group
    ends with each word that ends with one of [.!?]. *)
Fixpoint group (ws : list str) : list (list str) :=
  match ws with
  | [] => []
  | w :: r => if ends_terminal w then [w] :: group r
              else push_word w (group r)
  end.

(** Puts a string in front of the first piece. *)
Definition app_head (p : str) (ps : list str) : list str :=
  match ps with
  | [] => [p]
  | h :: t => (p ++ h) :: t
  end.

(** ** Windows *)

(** The number of values of a range with a positive step. *)
Definition range_len (i stop step : Z) : nat :=
  Z.to_nat ((stop - i + step - 1) / step).

(** The windows of a list of words: [words[i:i + max_words]] for [i] in
    the range. *)
Definition windows (ws : list str) (max_words : Z) : list (list str) :=
  map (fun k => slice ws (Z.of_nat k * max_words)
                         (Z.of_nat k * max_words + max_words))
      (seq 0 (range_len 0 (len ws) max_words)).

(** [ceil(a / b)] for a positive [b]. *)
Definition ceil_div (a b : Z) : Z := (a + b - 1) / b.

(** ** The state of the loop *)

(** The words of a list of strings, in order. *)
Definition words_in (ss : list str) : list str := concat (map split ss).

(** A well-formed chunk of at most [max_words] words. *)
Definition chunk_ok (max_words : Z) (c : str) : Prop :=
  wf c /\ len (split c) <= max_words.

(** What holds of the loop variables between two sentences. *)
Record inv (max_words : Z) (st : state) : Prop := mkInv {
  inv_current : Forall wf (current st);
  inv_count : word_count st = len (words_in (current st));
  inv_bound : word_count st <= max_words;
  inv_chunks : Forall (chunk_ok max_words) (chunks st)
}.

(** The words that a state holds, in its chunks and its accumulator. *)
Definition words_of (st : state) : list str :=
  words_in (chunks st) ++ words_in (current st).

(** What holds of the counter in every state that the loop reaches. *)
Definition sane (st : state) : Prop :=
  0 <= word_count st /\ (current st = [] -> word_count st = 0).

(** A state with chunks put in front of its own. *)
Definition prepend (cs : list str) (st : state) : state :=
  mkState (cs ++ chunks st) (current st) (word_count st).

(** ** The sentence splitter in the words of the specification *)

(** Collapse every run of whitespace into a single space: a whitespace
    character followed by another one is dropped, the last one of a run
    becomes a space. *)
Fixpoint collapse_runs (s : str) : str :=
  match s with
  | [] => []
  | c :: r =>
      if isspace c
      then if starts_ws r then collapse_runs r else SPACE :: collapse_runs r
      else c :: collapse_runs r
  end.

(** Collapse, then trim the ends. *)
Definition spec_normalize (text : str) : str := strip (collapse_runs text).

(** Split at each position immediately after one of [.!?] that is
    followed by whitespace: the punctuation closes the sentence, the
    separating whitespace is skipped ([skipping]), and what follows the
    last boundary is the last sentence. *)
Fixpoint spec_split (skipping : bool) (s : str) : list str :=
  match s with
  | [] => [[]]
  | c :: r =>
      if skipping && isspace c then spec_split true r
      else if is_terminal c && starts_ws r then [c] :: spec_split true r
      else cons_head c (spec_split false r)
  end.

(** The splitter as the specification words it: normalise, then split,
    and emit what follows the last boundary, or the whole text, as the
    last sentence. *)
Definition spec_split_sentences (text : str) : list str :=
  spec_split false (spec_normalize text).

(** ** A sample text *)

(** A text with a sentence of seven words between two short ones. *)
Definition sample : str := lit "x. a b c d e f g. y z.".

(** * The rest of the scripts *)

(** ** chunk_text.py: the loop of main *)

(** [str(n)] for an integer [n >= 0]: its decimal digits. *)
Definition digits (n : Z) : str :=
  lit (DecimalString.NilZero.string_of_uint (N.to_uint (Z.to_N n))).

(** Zeros on the left, up to [width] characters. *)
Definition zero_pad (width : nat) (s : str) : str :=
  repeat 48%N (width - length s) ++ s.

(** [format(i, "02d")]: the sign, then the digits padded with zeros so
    that the whole has at least two characters. *)
Definition format_02d (i : Z) : str :=
  if i <? 0 then 45%N :: zero_pad 1 (digits (- i))
  else zero_pad 2 (digits i).

(** [f"{prefix}_part_{i:02d}.txt"]. *)
Definition part_name (prefix : str) (i : Z) : str :=
  prefix ++ lit "_part_" ++ format_02d i ++ lit ".txt".

(** The loop [for i, chunk in enumerate(chunks, start=1)] of [main],
    as far as it computes: for each chunk, the [name] that is joined to
    the output directory and opened, and the string
    [chunk.strip() + "\n"] that is passed to [f.write].  What [open]
    and [f.write] do with them, and whether they raise, is outside the
    model. *)
Fixpoint part_requests (prefix : str) (i : Z) (chunks : list str)
  : list (str * str) :=
  match chunks with
  | [] => []
  | chunk :: r =>
      (part_name prefix i, strip chunk ++ [10%N])
        :: part_requests prefix (i + 1) r
  end.

(** Comparison of strings, [a < b]: by code points, a proper prefix
    first. *)
Fixpoint str_ltb (a b : str) : bool :=
  match a, b with
  | _, [] => false
  | [], _ :: _ => true
  | x :: a', y :: b' => (x <? y)%N || ((x =? y)%N && str_ltb a' b')
  end.

(** ** offline_test_run.py: the chunks of the voice text *)

(** [words = (script_body + " " + cta).split()], then one chunk for
    each [idx] in [range(0, len(words), chunk_size)]. *)
Definition voice_chunks (script_body cta : str) : result (list str) :=
  let words := split (script_body ++ lit " " ++ cta) in
  let chunk_size := 140 in
  idx <- range 0 (len words) chunk_size ;;
  Ok (fold_left
        (fun chunks i => chunks ++ [join_sp (slice words i (i + chunk_size))])
        idx []).

(** ** offline_test_run.py: slugify *)

(** The character class [[a-z0-9]]. *)
Definition is_slug_char (c : char) : bool :=
  ((97 <=? c) && (c <=? 122) || (48 <=? c) && (c <=? 57))%N.

Definition DASH : char := 45%N.

(** [re.sub(r"[^a-z0-9]+", "-", s)], scanned as [re_sub_from] is. *)
Fixpoint re_sub_nonslug (in_match : bool) (s : str) : str :=
  match s with
  | [] => []
  | c :: r =>
      if negb (is_slug_char c)
      then if in_match then re_sub_nonslug true r
           else DASH :: re_sub_nonslug true r
      else c :: re_sub_nonslug false r
  end.

(** [s.lstrip("-")], [s.rstrip("-")] and [s.strip("-")]. *)
Fixpoint lstrip_dash (s : str) : str :=
  match s with
  | [] => []
  | c :: r => if (c =? DASH)%N then lstrip_dash r else s
  end.

Definition rstrip_dash (s : str) : str := rev (lstrip_dash (rev s)).

Definition strip_dash (s : str) : str := rstrip_dash (lstrip_dash s).

(** [slugify].  [lower] stands for [str.lower], whose case tables are
    not part of the model. *)
Definition slugify (lower : str -> str) (value : str) : str :=
  let value := lower value in
  let value := re_sub_nonslug false value in
  let value := strip_dash value in
  if truthy value then value else lit "channel".

(** Lower case for the letters [A-Z], every other character kept. *)
Definition ascii_lower (s : str) : str :=
  map (fun c => if ((65 <=? c) && (c <=? 90))%N then (c + 32)%N else c) s.

(** ** offline_test_run.py: parse_duration *)

(** What [\d] matches: the digits [0-9] and, beyond ASCII, the decimal
    digits of Unicode, which [nd] stands for. *)
Definition is_digit (nd : char -> bool) (c : char) : bool :=
  if (c <? 128)%N then ((48 <=? c) && (c <=? 57))%N else nd c.

(** The longest run of digits at the start of a string, and the rest. *)
Fixpoint span_digits (nd : char -> bool) (s : str) : str * str :=
  match s with
  | [] => ([], [])
  | c :: r =>
      if is_digit nd c
      then let (d, r') := span_digits nd r in (c :: d, r')
      else ([], s)
  end.

(** The optional group [(?:(\d+)X)?] at the start of a string, for a
    letter [X]: the digits captured and the rest of the string.  [\d+]
    takes the whole run of digits; when [X] does not follow, no shorter
    run helps, since a digit would follow it, and the group matches
    nothing. *)
Definition opt_group (nd : char -> bool) (X : char) (s : str)
  : option str * str :=
  let (d, r) := span_digits nd s in
  match d, r with
  | _ :: _, c :: r' => if (c =? X)%N then (Some d, r') else (None, s)
  | _, _ => (None, s)
  end.

(** [int(group or 0)], [int] standing for the conversion of a string of
    digits, which may raise [ValueError]. *)
Definition int_or_0 (int : str -> result Z) (g : option str) : result Z :=
  match g with
  | Some d => int d
  | None => Ok 0
  end.

(** [parse_duration]: the match of [PT(?:(\d+)M)?(?:(\d+)S)?] at the
    start of [duration or ""]. *)
Definition parse_duration (nd : char -> bool) (int : str -> result Z)
  (duration : option str) : result Z :=
  let duration := match duration with Some d => d | None => [] end in
  match duration with
  | 80%N :: 84%N :: r =>
      let (g1, r1) := opt_group nd 77%N r in
      let (g2, _) := opt_group nd 83%N r1 in
      minutes <- int_or_0 int g1 ;;
      seconds <- int_or_0 int g2 ;;
      Ok (minutes * 60 + seconds)
  | _ => Ok 0
  end.

(** ** youtube_channel_dump.py: the batches of fetch_video_details *)

(** The successive values of [chunk = video_ids[i:i + 50]] for [i] in
    [range(0, len(video_ids), 50)]: the identifiers of one request. *)
Definition video_batches (video_ids : list str) : result (list (list str)) :=
  idx <- range 0 (len video_ids) 50 ;;
  Ok (map (fun i => slice video_ids i (i + 50)) idx).

(** ** Notions for the further properties *)

(** A string that holds one of [.!?] followed by whitespace. *)
Fixpoint has_boundary (s : str) : bool :=
  match s with
  | [] => false
  | c :: r => (is_terminal c && starts_ws r) || has_boundary r
  end.

(** A group in which no word but the last ends a sentence. *)
Fixpoint open_group (g : list str) : bool :=
  match g with
  | [] => true
  | w :: r => match r with
              | [] => true
              | _ :: _ => negb (ends_terminal w) && open_group r
              end
  end.

(** Every group but the last ends with a word that ends a sentence. *)
Fixpoint closed_groups (gs : list (list str)) : Prop :=
  match gs with
  | [] => True
  | g :: r => match r with
              | [] => True
              | _ :: _ => ends_terminal (last g []) = true /\ closed_groups r
              end
  end.

(** A valid slug: characters of [[a-z0-9-]], no dash at either end and
    no two dashes in a row; and not empty. *)
Fixpoint slug_body (prev_dash : bool) (s : str) : bool :=
  match s with
  | [] => negb prev_dash
  | c :: r =>
      if (c =? DASH)%N then negb prev_dash && slug_body true r
      else is_slug_char c && slug_body false r
  end.

Definition valid_slug (s : str) : bool := truthy s && slug_body true s.

(** The characters of a valid slug, with no two dashes in a row and no
    dash after [prev_dash]. *)
Fixpoint body_ok (prev_dash : bool) (s : str) : bool :=
  match s with
  | [] => true
  | c :: r =>
      if (c =? DASH)%N then negb prev_dash && body_ok true r
      else is_slug_char c && body_ok false r
  end.

(** Whether the last character is a dash; [prev_dash] for no character. *)
Fixpoint ends_dash (prev_dash : bool) (s : str) : bool :=
  match s with
  | [] => prev_dash
  | c :: r => ends_dash (c =? DASH)%N r
  end.

Definition starts_dash (s : str) : bool :=
  match s with
  | [] => false
  | c :: _ => (c =? DASH)%N
  end.

Definition all_dash (s : str) : Prop := Forall (fun c => c = DASH) s.

(** A string of code points below 256 as a string of the library. *)
Definition to_string (s : str) : string :=
  string_of_list_ascii (map ascii_of_N s).

(** The number that a string of decimal digits denotes. *)
Definition value (s : str) : option N :=
  option_map N.of_uint (DecimalString.NilEmpty.uint_of_string (to_string s)).

(** The conversion of a string of the digits [0-9]. *)
Definition ascii_int (s : str) : result Z :=
  match value s with
  | Some n => Ok (Z.of_N n)
  | None => ValueError
  end.

(** Blocks of sentences of which none could take the first sentence of
    the next one. *)
Fixpoint greedy (max_words : Z) (blocks : list (list str)) : Prop :=
  match blocks with
  | [] => True
  | b :: r =>
      match r with
      | [] => True
      | b' :: _ =>
          match b' with
          | [] => False
          | s' :: _ =>
              len (words_in b) + len (split s') > max_words
              /\ greedy max_words r
          end
      end
  end.

(** * The examples of the specification *)

Example single_short_sentence :
  chunk_text (lit "Hello world.") 120 160 = Ok [lit "Hello world."].
Proof. reflexivity. Qed.

Example three_one_word_sentences :
  chunk_text (lit "A. B. C.") 1 1 = Ok [lit "A."; lit "B."; lit "C."].
Proof. reflexivity. Qed.

Example irregular_whitespace :
  split_sentences [9; 72; 105; 33; 10; 10; 121; 111; 117; 32; 32; 63; 160]%N
  = [lit "Hi!"; lit "you ?"].
Proof. reflexivity. Qed.

Example oversized_windows :
  chunk_text (lit "x. a b c d e f g. y z.") 1 3
  = Ok [lit "x."; lit "a b c"; lit "d e f"; lit "g."; lit "y z."].
Proof. reflexivity. Qed.

Example zero_step_raises :
  chunk_text (lit "a") 0 0 = ValueError.
Proof. reflexivity. Qed.

Example negative_step_is_empty :
  chunk_text (lit "a b. c") 1 (-2) = Ok [].
Proof. reflexivity. Qed.

(** A run-on sentence of 500 words and the sizes of its chunks. *)
Example run_on_sentence :
  bind (chunk_text (join_sp (repeat (lit "w") 500)) 120 160)
       (fun cs => Ok (map (fun c => len (split c)) cs))
  = Ok [160; 160; 160; 20].
Proof. vm_compute. reflexivity. Qed.

(** The third sentence fills the chunk exactly and stays in it. *)
Example exact_fill_boundary :
  chunk_text (lit "a b. c d. e. f.") 1 5
  = Ok [lit "a b. c d. e."; lit "f."].
Proof. reflexivity. Qed.

(** A short sentence after a full chunk is a chunk below [min_words]. *)
Example chunk_below_min_words :
  chunk_text (lit "a b c. d.") 2 3 = Ok [lit "a b c."; lit "d."].
Proof. reflexivity. Qed.

(** * Properties *)

Arguments isspace : simpl never.
Arguments is_terminal : simpl never.

(** ** Characters, words and well-formed strings *)

Lemma isspace_SPACE : isspace SPACE = true.
Proof. reflexivity. Qed.

Lemma terminal_nonspace c : is_terminal c = true -> isspace c = false.
Proof.
  unfold is_terminal. intros H.
  apply orb_true_iff in H as [H | H];
    [apply orb_true_iff in H as [H | H] |];
    apply N.eqb_eq in H; subst c; reflexivity.
Qed.

Lemma len_nonneg {A} (xs : list A) : 0 <= len xs.
Proof. unfold len. lia. Qed.

Lemma len_app {A} (xs ys : list A) : len (xs ++ ys) = len xs + len ys.
Proof. unfold len. rewrite length_app. lia. Qed.

Lemma truthy_true {A} (xs : list A) : truthy xs = true <-> xs <> [].
Proof. destruct xs; simpl; split; congruence. Qed.

Lemma truthy_false {A} (xs : list A) : truthy xs = false <-> xs = [].
Proof. destruct xs; simpl; split; congruence. Qed.

(** ** split *)

Lemma split_cons2 c c' r :
  split (c :: c' :: r)
  = if isspace c then split (c' :: r)
    else if isspace c' then [c] :: split (c' :: r)
         else cons_head c (split (c' :: r)).
Proof. reflexivity. Qed.

Lemma cons_head_app c (l1 l2 : list str) :
  l1 <> [] -> cons_head c (l1 ++ l2) = cons_head c l1 ++ l2.
Proof. destruct l1; [congruence | reflexivity]. Qed.

Lemma split_nonspace_head c r :
  isspace c = false -> split (c :: r) <> [].
Proof.
  intros Hc. simpl. rewrite Hc.
  destruct r as [| c' r']; [discriminate |].
  destruct (isspace c'); [discriminate |].
  destruct (split (c' :: r')); discriminate.
Qed.

Lemma split_ws_cons c s : isspace c = true -> split (c :: s) = split s.
Proof. intros H. simpl. now rewrite H. Qed.

Lemma split_all_ws ws : Forall (fun c => isspace c = true) ws -> split ws = [].
Proof.
  induction 1 as [| c r Hc _ IH]; [reflexivity |].
  now rewrite split_ws_cons.
Qed.

Lemma split_ws_prefix ws s :
  Forall (fun c => isspace c = true) ws -> split (ws ++ s) = split s.
Proof.
  induction 1 as [| c r Hc _ IH]; [reflexivity |].
  simpl app. now rewrite split_ws_cons.
Qed.

(** Splitting distributes over a whitespace character. *)
Lemma split_app_ws a c b :
  isspace c = true -> split (a ++ c :: b) = split a ++ split b.
Proof.
  intros Hc. induction a as [| x a IH].
  - simpl app. now rewrite split_ws_cons.
  - change ((x :: a) ++ c :: b) with (x :: (a ++ c :: b)).
    destruct (isspace x) eqn:Hx.
    + now rewrite !split_ws_cons.
    + destruct a as [| y a'].
      * simpl app in *. simpl. rewrite Hx, Hc. f_equal.
        now rewrite <- (split_ws_cons c b Hc).
      * change (x :: (y :: a') ++ c :: b) with (x :: y :: a' ++ c :: b).
        rewrite !split_cons2.
        change (y :: a' ++ c :: b) with ((y :: a') ++ c :: b).
        rewrite Hx, IH. destruct (isspace y) eqn:Hy; [reflexivity |].
        apply cons_head_app. now apply split_nonspace_head.
Qed.

Lemma split_word w : word w -> split w = [w].
Proof.
  intros [Hne Hall]. induction Hall as [| c r Hc Hr IH]; [congruence |].
  destruct r as [| c' r'].
  - simpl. now rewrite Hc.
  - rewrite split_cons2, Hc. inversion Hr as [| ? ? Hc' _]; subst.
    unfold nonspace in Hc'. rewrite Hc', IH by discriminate. reflexivity.
Qed.

Lemma split_words : forall s, Forall word (split s).
Proof.
  induction s as [| c r IH]; [constructor |].
  destruct (isspace c) eqn:Hc.
  - now rewrite split_ws_cons.
  - destruct r as [| c' r'].
    + simpl. rewrite Hc. repeat constructor; [discriminate | assumption].
    + rewrite split_cons2, Hc. destruct (isspace c') eqn:Hc'.
      * constructor; [| assumption].
        split; [discriminate | now repeat constructor].
      * destruct (split (c' :: r')) as [| w ws] eqn:E.
        { now apply split_nonspace_head in E. }
        inversion IH as [| ? ? [Hw1 Hw2] Hws]; subst.
        simpl. constructor; [| assumption].
        split; [discriminate | now constructor].
Qed.

Lemma join_sp_cons x r :
  r <> [] -> join_sp (x :: r) = x ++ SPACE :: join_sp r.
Proof. destruct r; [congruence | reflexivity]. Qed.

Lemma join_sp_app xs ys :
  xs <> [] -> ys <> [] ->
  join_sp (xs ++ ys) = join_sp xs ++ SPACE :: join_sp ys.
Proof.
  intros Hx Hy. induction xs as [| x xs IH]; [congruence |].
  destruct xs as [| x' xs'].
  - simpl app. now rewrite join_sp_cons.
  - change ((x :: x' :: xs') ++ ys) with (x :: ((x' :: xs') ++ ys)).
    rewrite join_sp_cons by discriminate.
    rewrite IH by discriminate.
    rewrite (join_sp_cons x (x' :: xs')) by discriminate.
    now rewrite <- app_assoc.
Qed.

Lemma split_join ws : Forall word ws -> split (join_sp ws) = ws.
Proof.
  induction 1 as [| w r Hw Hr IH]; [reflexivity |].
  destruct r as [| w' r'].
  - simpl. now apply split_word.
  - rewrite join_sp_cons by discriminate.
    rewrite split_app_ws by apply isspace_SPACE.
    now rewrite split_word, IH.
Qed.

Lemma join_sp_nonempty ws : Forall word ws -> ws <> [] -> join_sp ws <> [].
Proof.
  intros H Hne. destruct H as [| w r [Hw _] _]; [congruence |].
  destruct r; simpl; [assumption |].
  destruct w; [congruence | discriminate].
Qed.

Lemma wf_join ws : Forall word ws -> ws <> [] -> wf (join_sp ws).
Proof.
  intros H Hne. split.
  - now rewrite split_join.
  - now apply join_sp_nonempty.
Qed.

Lemma wf_split_nonempty s : wf s -> split s <> [].
Proof. intros [Hj Hne] E. rewrite E in Hj. simpl in Hj. congruence. Qed.

(** ** strip *)

Lemma ends_ws_cons c r : r <> [] -> ends_ws (c :: r) = ends_ws r.
Proof. destruct r; [congruence | reflexivity]. Qed.

Lemma ends_ws_app a b : b <> [] -> ends_ws (a ++ b) = ends_ws b.
Proof.
  intros Hb. induction a as [| x a IH]; [reflexivity |].
  simpl app. rewrite ends_ws_cons; [assumption |].
  destruct a; simpl; [assumption | discriminate].
Qed.

Lemma starts_ws_app a b : a <> [] -> starts_ws (a ++ b) = starts_ws a.
Proof. destruct a; [congruence | reflexivity]. Qed.

Lemma starts_ws_rev s : starts_ws (rev s) = ends_ws s.
Proof.
  induction s as [| c r IH]; [reflexivity |].
  simpl rev. destruct r as [| c' r'].
  - reflexivity.
  - rewrite starts_ws_app, IH; [reflexivity |].
    simpl. destruct (rev r'); discriminate.
Qed.

Lemma lstrip_id s : starts_ws s = false -> lstrip s = s.
Proof. destruct s as [| c r]; simpl; [reflexivity | now intros ->]. Qed.

Lemma rstrip_id s : ends_ws s = false -> rstrip s = s.
Proof.
  intros H. unfold rstrip.
  rewrite lstrip_id by now rewrite starts_ws_rev.
  apply rev_involutive.
Qed.

Lemma strip_id s : starts_ws s = false -> ends_ws s = false -> strip s = s.
Proof.
  intros H1 H2. unfold strip. rewrite (lstrip_id s H1). now apply rstrip_id.
Qed.

Lemma lstrip_spec s :
  exists pre, s = pre ++ lstrip s /\ all_ws pre /\ starts_ws (lstrip s) = false.
Proof.
  induction s as [| c r (pre & E & Hpre & Hs)].
  - exists []. repeat split. constructor.
  - simpl. destruct (isspace c) eqn:Hc.
    + exists (c :: pre). simpl. rewrite <- E.
      repeat split; [now constructor | assumption].
    + exists []. repeat split; [constructor | assumption].
Qed.

Lemma rstrip_spec s :
  exists post, s = rstrip s ++ post /\ all_ws post /\ ends_ws (rstrip s) = false.
Proof.
  unfold rstrip. destruct (lstrip_spec (rev s)) as (pre & E & Hpre & Hs).
  exists (rev pre). repeat split.
  - rewrite <- rev_app_distr, <- E. now rewrite rev_involutive.
  - now apply Forall_rev.
  - rewrite <- starts_ws_rev. now rewrite rev_involutive.
Qed.

(** [strip] removes a whitespace prefix and a whitespace suffix and
    leaves a string with whitespace at neither end. *)
Lemma strip_spec s :
  exists pre post,
    s = pre ++ strip s ++ post /\ all_ws pre /\ all_ws post
    /\ starts_ws (strip s) = false /\ ends_ws (strip s) = false.
Proof.
  destruct (lstrip_spec s) as (pre & E1 & Hpre & Hs).
  destruct (rstrip_spec (lstrip s)) as (post & E2 & Hpost & He).
  exists pre, post. unfold strip. repeat split; try assumption.
  - now rewrite <- E2.
  - destruct (rstrip (lstrip s)) as [| c r] eqn:E; [reflexivity |].
    rewrite E2 in Hs. exact Hs.
Qed.

Lemma split_ws_suffix s ws : all_ws ws -> split (s ++ ws) = split s.
Proof.
  intros H. destruct H as [| c r Hc Hr].
  - now rewrite app_nil_r.
  - rewrite split_app_ws by assumption.
    rewrite (split_all_ws r Hr). apply app_nil_r.
Qed.

Lemma split_strip s : split (strip s) = split s.
Proof.
  destruct (strip_spec s) as (pre & post & E & Hpre & Hpost & _).
  rewrite E at 2.
  rewrite split_ws_prefix by assumption.
  now rewrite split_ws_suffix.
Qed.

Lemma word_starts w : word w -> starts_ws w = false.
Proof. intros [Hne H]. destruct H; [congruence | assumption]. Qed.

Lemma word_ends w : word w -> ends_ws w = false.
Proof.
  intros [Hne H]. induction H as [| c r Hc Hr IH]; [congruence |].
  destruct r; [assumption |].
  rewrite ends_ws_cons by discriminate. apply IH. discriminate.
Qed.

Lemma join_starts ws : Forall word ws -> starts_ws (join_sp ws) = false.
Proof.
  intros H. destruct H as [| w r Hw Hr]; [reflexivity |].
  destruct r; simpl join_sp.
  - now apply word_starts.
  - rewrite starts_ws_app by apply Hw. now apply word_starts.
Qed.

Lemma join_ends ws : Forall word ws -> ends_ws (join_sp ws) = false.
Proof.
  induction 1 as [| w r Hw Hr IH]; [reflexivity |].
  destruct r as [| w' r'].
  - now apply word_ends.
  - rewrite join_sp_cons by discriminate.
    rewrite ends_ws_app by discriminate.
    rewrite ends_ws_cons; [assumption |].
    apply join_sp_nonempty; [assumption | discriminate].
Qed.

Lemma strip_join ws : Forall word ws -> strip (join_sp ws) = join_sp ws.
Proof.
  intros H. apply strip_id; [now apply join_starts | now apply join_ends].
Qed.

Lemma wf_strip s : wf s -> strip s = s.
Proof. intros [E _]. rewrite <- E. apply strip_join, split_words. Qed.

(** ** Normalisation *)

Lemma ends_ws_all_ws s : all_ws s -> s <> [] -> ends_ws s = true.
Proof.
  induction 1 as [| c r Hc Hr IH]; [congruence |]. intros _.
  destruct r; [assumption |].
  rewrite ends_ws_cons by discriminate. apply IH. discriminate.
Qed.

Lemma split_nil_all_ws s : split s = [] -> all_ws s.
Proof.
  induction s as [| c r IH]; [constructor |].
  destruct (isspace c) eqn:Hc.
  - rewrite split_ws_cons by assumption. intros H.
    constructor; [assumption | now apply IH].
  - intros H. now apply split_nonspace_head in H.
Qed.

(** The shape of a string after a nonspace character [c]. *)
Lemma after_nonspace c r :
  isspace c = false ->
  join_sp (split (c :: r)) ++ tail_sp (c :: r)
  = c :: (if starts_ws r then [SPACE] else [])
         ++ join_sp (split r) ++ tail_sp r.
Proof.
  intros Hc. destruct r as [| c' r'].
  - unfold tail_sp. simpl. now rewrite Hc.
  - unfold tail_sp. rewrite (ends_ws_cons c (c' :: r')) by discriminate.
    rewrite !split_cons2, Hc. simpl starts_ws. destruct (isspace c') eqn:Hc'.
    + destruct (split (c' :: r')) as [| w ws] eqn:E.
      * rewrite (ends_ws_all_ws (c' :: r')) by
          (try apply split_nil_all_ws; easy).
        reflexivity.
      * rewrite join_sp_cons by discriminate.
        rewrite !andb_true_r. reflexivity.
    + destruct (split (c' :: r')) as [| w ws] eqn:E.
      { now apply split_nonspace_head in E. }
      simpl cons_head. rewrite !andb_true_r.
      destruct ws; reflexivity.
Qed.

Lemma re_sub_from_shape : forall s m,
  re_sub_from m s
  = (if starts_ws s && negb m then [SPACE] else [])
    ++ join_sp (split s) ++ tail_sp s.
Proof.
  induction s as [| c r IH]; intros m; [reflexivity |].
  simpl re_sub_from. simpl starts_ws. destruct (isspace c) eqn:Hc.
  - assert (E : join_sp (split (c :: r)) ++ tail_sp (c :: r)
               = join_sp (split r) ++ tail_sp r).
    { unfold tail_sp. rewrite split_ws_cons by assumption.
      destruct r as [| c' r']; [now rewrite !andb_false_r |].
      now rewrite ends_ws_cons by discriminate. }
    rewrite E. destruct m; simpl; rewrite IH, andb_false_r; reflexivity.
  - rewrite IH, andb_true_r.
    exact (eq_sym (after_nonspace c r Hc)).
Qed.

(** The normalised text is the words of the text joined by single
    spaces. *)
Lemma normalize_join text : normalize text = join_sp (split text).
Proof.
  unfold normalize, re_sub_ws. rewrite re_sub_from_shape.
  destruct (strip_spec text) as (_ & _ & _ & _ & _ & Hs & He).
  unfold tail_sp. rewrite Hs, He. simpl.
  now rewrite app_nil_r, split_strip.
Qed.

Lemma split_normalize text : split (normalize text) = split text.
Proof. rewrite normalize_join. apply split_join, split_words. Qed.

Lemma normalize_wf s : wf s -> normalize s = s.
Proof. intros [E _]. now rewrite normalize_join. Qed.

(** ** Sentences, seen as groups of words *)

Lemma app_head_cons c w ps : app_head (c :: w) ps = cons_head c (app_head w ps).
Proof. destruct ps; reflexivity. Qed.

Lemma re_split_word : forall w c p m rest,
  Forall nonspace (c :: w) ->
  re_split_from p m ((c :: w) ++ rest)
  = app_head (c :: w) (re_split_from (last_char (c :: w)) false rest).
Proof.
  induction w as [| c' w IH]; intros c p m rest H;
    inversion H as [| ? ? Hc Hw]; subst; unfold nonspace in Hc.
  - simpl. rewrite Hc. simpl. now destruct (re_split_from (Some c) false rest).
  - change (re_split_from p m ((c :: c' :: w) ++ rest)) with
      (if isspace c && (m || lookbehind p)
       then if m then re_split_from (Some c) true ((c' :: w) ++ rest)
            else [] :: re_split_from (Some c) true ((c' :: w) ++ rest)
       else cons_head c (re_split_from (Some c) false ((c' :: w) ++ rest))).
    rewrite Hc. simpl andb. cbv iota.
    rewrite IH by assumption. now rewrite <- app_head_cons.
Qed.

Lemma group_nonempty ws : ws <> [] -> group ws <> [].
Proof.
  destruct ws as [| w r]; [congruence |]. intros _. simpl.
  destruct (ends_terminal w); [discriminate |].
  destruct (group r); discriminate.
Qed.

Lemma group_groups ws : Forall (fun g => g <> []) (group ws).
Proof.
  induction ws as [| w r IH]; [constructor |]. simpl.
  destruct (ends_terminal w).
  - constructor; [discriminate | assumption].
  - destruct (group r) as [| g gs]; simpl.
    + constructor; [discriminate | constructor].
    + inversion IH; subst. constructor; [discriminate | assumption].
Qed.

Lemma concat_group ws : concat (group ws) = ws.
Proof.
  induction ws as [| w r IH]; [reflexivity |]. simpl.
  destruct (ends_terminal w).
  - simpl. now rewrite IH.
  - destruct (group r) as [| g gs]; simpl in *; now rewrite <- IH.
Qed.

Lemma group_words ws : Forall word ws -> Forall (Forall word) (group ws).
Proof.
  intros H. apply Forall_concat. now rewrite concat_group.
Qed.

(** Splitting a normalised text after terminal punctuation splits it
    between its groups of words. *)
Lemma re_split_join : forall ws,
  Forall word ws -> ws <> [] ->
  forall p m, re_split_from p m (join_sp ws) = map join_sp (group ws).
Proof.
  induction 1 as [| w r Hw Hr IH]; [congruence |]. intros _ p m.
  destruct w as [| c w]; [now destruct Hw |].
  destruct r as [| w' r'].
  - simpl join_sp. rewrite <- (app_nil_r (c :: w)) at 1.
    rewrite re_split_word by apply Hw. simpl re_split_from.
    simpl app_head. rewrite app_nil_r.
    simpl group. now destruct (ends_terminal (c :: w)).
  - rewrite join_sp_cons by discriminate.
    rewrite re_split_word by apply Hw.
    change (re_split_from (last_char (c :: w)) false
              (SPACE :: join_sp (w' :: r'))) with
      (if isspace SPACE && (false || ends_terminal (c :: w))
       then [] :: re_split_from (Some SPACE) true (join_sp (w' :: r'))
       else cons_head SPACE
              (re_split_from (Some SPACE) false (join_sp (w' :: r')))).
    rewrite isspace_SPACE, !IH by discriminate. simpl andb.
    change (group ((c :: w) :: w' :: r')) with
      (if ends_terminal (c :: w) then [c :: w] :: group (w' :: r')
       else push_word (c :: w) (group (w' :: r'))).
    destruct (ends_terminal (c :: w)).
    + simpl. now rewrite app_nil_r.
    + pose proof (group_nonempty (w' :: r')) as Hne.
      pose proof (group_groups (w' :: r')) as Hg.
      destruct (group (w' :: r')) as [| g gs];
        [exfalso; now apply Hne |].
      inversion Hg; subst. destruct g; [congruence | reflexivity].
Qed.

Theorem split_sentences_groups text :
  split_sentences text = map join_sp (group (split text)).
Proof.
  unfold split_sentences, re_split_terminal.
  rewrite normalize_join.
  destruct (split text) as [| w ws] eqn:E; [reflexivity |].
  assert (Hw : Forall word (w :: ws)) by (rewrite <- E; apply split_words).
  rewrite (proj2 (truthy_true _)).
  - simpl negb. cbv iota. now apply re_split_join.
  - apply join_sp_nonempty; [assumption | discriminate].
Qed.

Lemma map_split_join gs :
  Forall (Forall word) gs -> map split (map join_sp gs) = gs.
Proof.
  induction 1 as [| g gs Hg _ IH]; [reflexivity |].
  simpl. now rewrite split_join, IH.
Qed.

(** Every sentence is well formed, and the words of the sentences are
    the words of the text. *)
Lemma sentences_wf text : Forall wf (split_sentences text).
Proof.
  rewrite split_sentences_groups.
  pose proof (group_words _ (split_words text)) as Hw.
  pose proof (group_groups (split text)) as Hg.
  induction Hw as [| g gs Hgw _ IH]; [constructor |].
  inversion Hg; subst. constructor; [now apply wf_join | now apply IH].
Qed.

Lemma sentences_words text :
  concat (map split (split_sentences text)) = split text.
Proof.
  rewrite split_sentences_groups, map_split_join.
  - apply concat_group.
  - apply group_words, split_words.
Qed.

(** ** range, slices and windows *)

Lemma slice_firstn_skipn {A} (xs : list A) i m :
  0 <= i -> 0 <= m ->
  slice xs i (i + m) = firstn (Z.to_nat m) (skipn (Z.to_nat i) xs).
Proof.
  intros Hi Hm. unfold slice, clamp.
  destruct (Z.ltb_spec i 0); [lia |].
  destruct (Z.ltb_spec (i + m) 0); [lia |].
  pose proof (len_nonneg xs) as Hn.
  destruct (Z_le_gt_dec (len xs) i) as [Hge | Hlt].
  - rewrite (skipn_all2 (n := Z.to_nat i)) by (unfold len in Hge; lia).
    rewrite (skipn_all2 (n := Z.to_nat (Z.min i (len xs))))
      by (unfold len in *; lia).
    now rewrite !firstn_nil.
  - replace (Z.min i (len xs)) with i by lia.
    destruct (Z_le_gt_dec (i + m) (len xs)).
    + f_equal. lia.
    + rewrite !firstn_all2; [reflexivity | |];
        rewrite length_skipn; unfold len in *; lia.
Qed.

Lemma Forall_firstn {A} (P : A -> Prop) n : forall l,
  Forall P l -> Forall P (firstn n l).
Proof.
  induction n as [| n IH]; intros l H; [constructor |].
  destruct H; simpl; [constructor | constructor; auto].
Qed.

Lemma Forall_skipn {A} (P : A -> Prop) n : forall l,
  Forall P l -> Forall P (skipn n l).
Proof.
  induction n as [| n IH]; intros l H; [assumption |].
  destruct H; simpl; [constructor | auto].
Qed.

Lemma range_len_done i stop step : 0 < step -> stop <= i -> range_len i stop step = 0%nat.
Proof.
  intros Hs Hi. unfold range_len.
  assert ((stop - i + step - 1) / step < 1)
    by (apply Z.div_lt_upper_bound; lia).
  lia.
Qed.

Lemma range_len_next i stop step :
  0 < step -> i < stop ->
  range_len i stop step = S (range_len (i + step) stop step).
Proof.
  intros Hs Hi. unfold range_len.
  replace (stop - i + step - 1) with (stop - (i + step) + step - 1 + 1 * step)
    by lia.
  rewrite Z.div_add by lia.
  assert (0 <= (stop - (i + step) + step - 1) / step)
    by (apply Z.div_pos; lia).
  lia.
Qed.

(** With enough fuel, the range is [i], [i + step], ...,
    [i + (n - 1) * step]. *)
Lemma range_up_seq : forall fuel i stop step,
  0 < step -> (Z.to_nat (stop - i) <= fuel)%nat ->
  range_up fuel i stop step
  = map (fun k => i + Z.of_nat k * step) (seq 0 (range_len i stop step)).
Proof.
  induction fuel as [| f IH]; intros i stop step Hs Hf.
  - rewrite range_len_done by lia. reflexivity.
  - simpl. destruct (Z.ltb_spec i stop).
    + rewrite range_len_next by assumption.
      rewrite IH by lia. simpl. f_equal; [lia |].
      rewrite <- seq_shift, map_map.
      apply map_ext. intros k. lia.
    + now rewrite range_len_done.
Qed.

Lemma range_positive stop step :
  1 <= step -> 0 <= stop ->
  range 0 stop step
  = Ok (map (fun k => Z.of_nat k * step) (seq 0 (range_len 0 stop step))).
Proof.
  intros Hs Hstop. unfold range.
  destruct (Z.eqb_spec step 0); [lia |].
  destruct (Z.ltb_spec 0 step); [| lia].
  rewrite range_up_seq by lia. reflexivity.
Qed.

Lemma windows_count ws max_words :
  1 <= max_words ->
  len (windows ws max_words) = (len ws + max_words - 1) / max_words.
Proof.
  intros Hm. unfold windows. unfold len at 1.
  rewrite length_map, length_seq. unfold range_len.
  rewrite Z.sub_0_r.
  pose proof (len_nonneg ws).
  assert (0 <= (len ws + max_words - 1) / max_words)
    by (apply Z.div_pos; lia).
  lia.
Qed.

Lemma windows_nth ws max_words k :
  (k < range_len 0 (len ws) max_words)%nat ->
  nth k (windows ws max_words) []
  = slice ws (Z.of_nat k * max_words) (Z.of_nat k * max_words + max_words).
Proof.
  intros Hk. unfold windows.
  rewrite (nth_indep _ []
             (slice ws (Z.of_nat 0 * max_words)
                       (Z.of_nat 0 * max_words + max_words)))
    by now rewrite length_map, length_seq.
  rewrite (map_nth (fun k => slice ws (Z.of_nat k * max_words)
                                      (Z.of_nat k * max_words + max_words))).
  now rewrite seq_nth.
Qed.

(** A window that starts inside the list holds [max_words] words, or
    the words that remain when they are fewer. *)
Lemma window_len {A} (ws : list A) max_words i :
  1 <= max_words -> 0 <= i <= len ws ->
  len (slice ws i (i + max_words)) = Z.min max_words (len ws - i).
Proof.
  intros Hm Hi. rewrite slice_firstn_skipn by lia.
  unfold len in *. rewrite length_firstn, length_skipn. lia.
Qed.

Lemma range_len_bound stop step k :
  1 <= step -> (k < range_len 0 stop step)%nat -> Z.of_nat k * step < stop.
Proof.
  unfold range_len. intros Hs Hk. rewrite Z.sub_0_r in Hk.
  assert (Hq : Z.of_nat k < (stop + step - 1) / step) by lia.
  pose proof (Z.mul_div_le (stop + step - 1) step ltac:(lia)).
  nia.
Qed.

Lemma windows_ok ws max_words :
  1 <= max_words -> Forall word ws ->
  Forall (fun win => win <> [] /\ Forall word win /\ len win <= max_words)
         (windows ws max_words).
Proof.
  intros Hm Hw. unfold windows. apply Forall_map, Forall_forall.
  intros k Hk. apply in_seq in Hk. simpl in Hk.
  pose proof (range_len_bound (len ws) max_words k Hm ltac:(lia)) as Hlt.
  assert (Hl : len (slice ws (Z.of_nat k * max_words)
                          (Z.of_nat k * max_words + max_words))
               = Z.min max_words (len ws - Z.of_nat k * max_words))
    by (apply window_len; nia).
  repeat split.
  - intros E. rewrite E in Hl. unfold len in Hl at 1. simpl in Hl. lia.
  - rewrite slice_firstn_skipn by nia.
    now apply Forall_firstn, Forall_skipn.
  - lia.
Qed.

(** The windows cover the words, in order. *)
Lemma concat_windows ws max_words :
  1 <= max_words -> concat (windows ws max_words) = ws.
Proof.
  intros Hm. unfold windows.
  assert (G : forall n k,
    (n = range_len (Z.of_nat k * max_words) (len ws) max_words)%nat ->
    concat (map (fun j => slice ws (Z.of_nat j * max_words)
                                   (Z.of_nat j * max_words + max_words))
                (seq k n))
    = skipn (Z.to_nat (Z.of_nat k * max_words)) ws).
  { induction n as [| n IH]; intros k Hn.
    - simpl. rewrite skipn_all2; [reflexivity |].
      destruct (Z_lt_le_dec (Z.of_nat k * max_words) (len ws)) as [Hlt | Hge].
      + rewrite range_len_next in Hn by lia. discriminate.
      + unfold len in Hge. lia.
    - destruct (Z_lt_le_dec (Z.of_nat k * max_words) (len ws)) as [Hlt | Hge].
      + rewrite range_len_next in Hn by lia.
        simpl. rewrite IH
          by (replace (Z.of_nat (S k) * max_words)
                with (Z.of_nat k * max_words + max_words) by lia; lia).
        rewrite slice_firstn_skipn by lia.
        replace (Z.to_nat (Z.of_nat (S k) * max_words))
          with (Z.to_nat max_words + Z.to_nat (Z.of_nat k * max_words))%nat
          by lia.
        rewrite <- skipn_skipn. apply firstn_skipn.
      + rewrite range_len_done in Hn by lia. discriminate. }
  exact (G _ 0%nat eq_refl).
Qed.

Lemma fold_emit_part ws max_words : forall idx cs,
  Forall (fun i => slice ws i (i + max_words) <> []
                   /\ Forall word (slice ws i (i + max_words))) idx ->
  fold_left (emit_part ws max_words) idx cs
  = cs ++ map (fun i => join_sp (slice ws i (i + max_words))) idx.
Proof.
  induction idx as [| i idx IH]; intros cs H.
  - simpl. now rewrite app_nil_r.
  - inversion H as [| ? ? [Hne Hw] Hr]; subst. simpl.
    rewrite IH by assumption. unfold emit_part.
    rewrite strip_join by assumption.
    rewrite (proj2 (truthy_true _)) by now apply join_sp_nonempty.
    now rewrite <- app_assoc.
Qed.

(** The inner loop appends one chunk for each window. *)
Lemma emit_windows_ok ws max_words cs :
  1 <= max_words -> Forall word ws ->
  emit_windows ws max_words cs
  = Ok (cs ++ map join_sp (windows ws max_words)).
Proof.
  intros Hm Hw. unfold emit_windows.
  rewrite range_positive by (try apply len_nonneg; lia). simpl bind.
  pose proof (windows_ok ws max_words Hm Hw) as Hok.
  unfold windows in *. rewrite Forall_map in Hok.
  rewrite fold_emit_part.
  - now rewrite !map_map.
  - rewrite Forall_map. eapply Forall_impl; [| exact Hok].
    simpl. intros k (H1 & H2 & _). now split.
Qed.

(** ** The packing loop *)

Lemma words_in_app a b : words_in (a ++ b) = words_in a ++ words_in b.
Proof. unfold words_in. now rewrite map_app, concat_app. Qed.

Lemma words_in_one s : words_in [s] = split s.
Proof. unfold words_in. simpl. apply app_nil_r. Qed.

Lemma words_in_words ss : Forall word (words_in ss).
Proof.
  unfold words_in. apply Forall_concat, Forall_map, Forall_forall.
  intros s _. apply split_words.
Qed.

Lemma words_in_join gs :
  Forall (Forall word) gs -> words_in (map join_sp gs) = concat gs.
Proof. intros H. unfold words_in. now rewrite map_split_join. Qed.

Lemma join_concat gs :
  Forall (fun g => g <> []) gs -> join_sp (map join_sp gs) = join_sp (concat gs).
Proof.
  induction 1 as [| g gs Hg Hgs IH]; [reflexivity |].
  destruct gs as [| g' gs'].
  - simpl. now rewrite app_nil_r.
  - change (map join_sp (g :: g' :: gs')) with
      (join_sp g :: map join_sp (g' :: gs')).
    rewrite join_sp_cons by discriminate. rewrite IH.
    change (concat (g :: g' :: gs')) with (g ++ concat (g' :: gs')).
    rewrite join_sp_app; [reflexivity | assumption |].
    inversion Hgs; subst. simpl. destruct g'; [congruence | discriminate].
Qed.

(** Joining well-formed strings joins their words. *)
Lemma join_wf ss : Forall wf ss -> join_sp ss = join_sp (words_in ss).
Proof.
  intros H. unfold words_in. rewrite <- join_concat.
  - rewrite map_map. f_equal. rewrite <- (map_id ss) at 1.
    apply map_ext_Forall. eapply Forall_impl; [| exact H].
    intros s [E _]. now rewrite E.
  - apply Forall_map. eapply Forall_impl; [| exact H].
    intros s. apply wf_split_nonempty.
Qed.

Lemma words_in_nonempty ss : Forall wf ss -> ss <> [] -> words_in ss <> [].
Proof.
  intros H Hne. destruct H as [| s r Hs _]; [congruence |].
  unfold words_in. simpl. apply wf_split_nonempty in Hs.
  destruct (split s); [congruence | discriminate].
Qed.

Lemma flushed_chunk ss :
  Forall wf ss -> ss <> [] ->
  strip (join_sp ss) = join_sp (words_in ss)
  /\ wf (join_sp (words_in ss))
  /\ split (join_sp (words_in ss)) = words_in ss.
Proof.
  intros H Hne. rewrite join_wf by assumption.
  pose proof (words_in_words ss) as Hw.
  repeat split.
  - now apply strip_join.
  - now rewrite split_join.
  - apply join_sp_nonempty; [assumption | now apply words_in_nonempty].
  - now apply split_join.
Qed.

Lemma flush_inv max_words st :
  0 <= max_words -> inv max_words st ->
  inv max_words (flush st) /\ words_of (flush st) = words_of st.
Proof.
  intros Hm [Hcur Hcnt Hb Hch]. unfold flush, words_of.
  destruct (current st) as [| s r] eqn:E; simpl truthy; cbv iota.
  - split; [constructor; simpl; auto |]. reflexivity.
  - destruct (flushed_chunk (s :: r) Hcur ltac:(discriminate))
      as (E1 & E2 & E3).
    rewrite E1. split.
    + constructor; simpl; auto.
      apply Forall_app. split; [assumption |].
      constructor; [| constructor]. split; [assumption |].
      rewrite E3. lia.
    + simpl current. simpl chunks.
      rewrite words_in_app, words_in_one, E3.
      apply app_nil_r.
Qed.

Lemma window_chunks ws max_words :
  1 <= max_words -> Forall word ws ->
  Forall (chunk_ok max_words) (map join_sp (windows ws max_words))
  /\ words_in (map join_sp (windows ws max_words)) = ws.
Proof.
  intros Hm Hw. pose proof (windows_ok ws max_words Hm Hw) as Hok. split.
  - apply Forall_map. eapply Forall_impl; [| exact Hok].
    intros win (H1 & H2 & H3). split; [now apply wf_join |].
    now rewrite split_join.
  - rewrite words_in_join; [now apply concat_windows |].
    eapply Forall_impl; [| exact Hok]. now intros win (_ & H & _).
Qed.

(** One sentence: the loop body returns, keeps the invariant and adds
    the words of the sentence. *)
Lemma step_inv min_words max_words st s :
  1 <= max_words -> inv max_words st -> wf s ->
  exists st', step min_words max_words st s = Ok st'
              /\ inv max_words st'
              /\ words_of st' = words_of st ++ split s.
Proof.
  intros Hm Hinv Hs. unfold step.
  destruct (flush_inv max_words st ltac:(lia) Hinv) as [Hf Hfw].
  destruct (Z.gtb_spec (len (split s)) max_words) as [Hbig | Hfit].
  - set (st1 := if truthy (current st) then flush st else st).
    assert (H1 : inv max_words st1 /\ words_of st1 = words_of st
                 /\ current st1 = []).
    { unfold st1. destruct (current st) eqn:E; simpl truthy; cbv iota.
      - split; [assumption | split; [reflexivity | assumption]].
      - split; [assumption | split; [assumption | reflexivity]]. }
    destruct H1 as ([Hcur Hcnt Hb Hch] & Hw1 & Hc1).
    rewrite emit_windows_ok by (try apply split_words; lia). simpl bind.
    destruct (window_chunks (split s) max_words Hm (split_words s))
      as [Hwc Hww].
    eexists. split; [reflexivity |]. split.
    + constructor; simpl; try assumption.
      apply Forall_app. now split.
    + unfold words_of in *. simpl. rewrite words_in_app, Hww.
      rewrite Hc1 in *. rewrite <- Hw1.
      unfold words_in at 2 4. simpl. now rewrite !app_nil_r.
  - set (st1 := if word_count st + len (split s) >? max_words
                then if word_count st >=? min_words
                     then flush st else flush st
                else st).
    assert (H1 : inv max_words st1 /\ words_of st1 = words_of st
                 /\ word_count st1 + len (split s) <= max_words).
    { unfold st1.
      destruct (Z.gtb_spec (word_count st + len (split s)) max_words).
      - destruct (word_count st >=? min_words);
          (split; [assumption | split; [assumption | simpl; lia]]).
      - split; [assumption | split; [reflexivity | lia]]. }
    destruct H1 as ([Hcur Hcnt Hb Hch] & Hw1 & Hb1).
    eexists. split; [reflexivity |]. split.
    + constructor; simpl; try assumption.
      * apply Forall_app. split; [assumption | now constructor].
      * rewrite words_in_app, len_app, words_in_one. lia.
    + unfold words_of in *. simpl.
      rewrite words_in_app, words_in_one, app_assoc. now rewrite Hw1.
Qed.

Lemma run_loop_inv min_words max_words :
  1 <= max_words ->
  forall ss st, inv max_words st -> Forall wf ss ->
  exists st', run_loop min_words max_words st ss = Ok st'
              /\ inv max_words st'
              /\ words_of st' = words_of st ++ words_in ss.
Proof.
  intros Hm. induction ss as [| s ss IH]; intros st Hinv Hss.
  - exists st. split; [reflexivity | split; [assumption |]].
    unfold words_in. simpl. now rewrite app_nil_r.
  - inversion Hss as [| ? ? Hs Hr]; subst.
    destruct (step_inv min_words max_words st s Hm Hinv Hs)
      as (st1 & E1 & Hinv1 & Hw1).
    destruct (IH st1 Hinv1 Hr) as (st2 & E2 & Hinv2 & Hw2).
    exists st2. simpl. rewrite E1. simpl.
    split; [assumption | split; [assumption |]].
    now rewrite Hw2, Hw1, <- app_assoc.
Qed.

Lemma init_inv max_words : 0 <= max_words -> inv max_words init.
Proof. intros H. constructor; simpl; auto. Qed.

(** Packing well-formed sentences returns chunks that are well formed,
    hold at most [max_words] words, and hold the words of the
    sentences. *)
Lemma pack_ok min_words max_words ss :
  1 <= max_words -> Forall wf ss ->
  exists cs, pack min_words max_words ss = Ok cs
             /\ Forall (chunk_ok max_words) cs
             /\ words_in cs = words_in ss.
Proof.
  intros Hm Hss. unfold pack.
  destruct (run_loop_inv min_words max_words Hm ss init
              (init_inv max_words ltac:(lia)) Hss) as (st & E & Hinv & Hw).
  rewrite E. simpl bind. eexists. split; [reflexivity |].
  destruct (flush_inv max_words st ltac:(lia) Hinv) as [Hf Hfw].
  change (words_of init) with (@nil str) in Hw. simpl app in Hw.
  assert (Hfc : words_in (chunks (flush st)) = words_of st).
  { rewrite <- Hfw. unfold words_of. simpl current.
    symmetry. apply app_nil_r. }
  destruct (current st) eqn:Ec; simpl truthy; cbv iota.
  - split; [apply Hinv |]. rewrite <- Hw. unfold words_of.
    rewrite Ec. symmetry. apply app_nil_r.
  - split; [apply Hf |]. now rewrite Hfc.
Qed.

(** ** The branches of the loop body *)

Lemma step_fits min_words max_words st s :
  0 <= word_count st ->
  word_count st + len (split s) <= max_words ->
  step min_words max_words st s
  = Ok (mkState (chunks st) (current st ++ [s])
                (word_count st + len (split s))).
Proof.
  intros H0 Hfit. unfold step.
  destruct (Z.gtb_spec (len (split s)) max_words); [lia |].
  destruct (Z.gtb_spec (word_count st + len (split s)) max_words); [lia |].
  reflexivity.
Qed.

Lemma step_overflow min_words max_words st s :
  len (split s) <= max_words ->
  word_count st + len (split s) > max_words ->
  step min_words max_words st s
  = Ok (mkState (chunks (flush st)) [s] (len (split s))).
Proof.
  intros Hs Hover. unfold step.
  destruct (Z.gtb_spec (len (split s)) max_words); [lia |].
  destruct (Z.gtb_spec (word_count st + len (split s)) max_words); [| lia].
  destruct (word_count st >=? min_words); reflexivity.
Qed.

Lemma step_oversized min_words max_words st s :
  len (split s) > max_words ->
  step min_words max_words st s
  = (cs <- emit_windows (split s) max_words
             (chunks (if truthy (current st) then flush st else st)) ;;
     Ok (mkState cs [] (if truthy (current st) then 0 else word_count st))).
Proof.
  intros Hbig. unfold step.
  destruct (Z.gtb_spec (len (split s)) max_words); [| lia].
  destruct (current st) eqn:E; simpl; rewrite ?E; reflexivity.
Qed.

Lemma step_sane min_words max_words st s st' :
  sane st -> step min_words max_words st s = Ok st' -> sane st'.
Proof.
  intros [H0 Hc] E.
  destruct (Z_gt_le_dec (len (split s)) max_words) as [Hbig | Hfit].
  - rewrite step_oversized in E by assumption.
    destruct (emit_windows _ _ _); [| discriminate].
    injection E as <-. split; simpl.
    + destruct (current st); simpl; lia.
    + intros _. destruct (current st); simpl; auto.
  - pose proof (len_nonneg (split s)).
    destruct (Z_gt_le_dec (word_count st + len (split s)) max_words).
    + rewrite step_overflow in E by assumption. injection E as <-.
      split; simpl; [lia | discriminate].
    + rewrite step_fits in E by assumption. injection E as <-.
      split; simpl; [lia |]. now destruct (current st).
Qed.

Lemma run_loop_sane min_words max_words : forall ss st st',
  sane st -> run_loop min_words max_words st ss = Ok st' -> sane st'.
Proof.
  induction ss as [| s ss IH]; intros st st' Hs E; simpl in E.
  - now injection E as <-.
  - destruct (step min_words max_words st s) as [st1 |] eqn:E1;
      [| discriminate].
    eapply IH; [| exact E]. eapply step_sane; eassumption.
Qed.

Lemma init_sane : sane init.
Proof. split; simpl; [lia | reflexivity]. Qed.

(** Sentences that fit together are all kept in the accumulator. *)
Lemma run_loop_fits min_words max_words : forall ss st,
  0 <= word_count st ->
  word_count st + len (words_in ss) <= max_words ->
  run_loop min_words max_words st ss
  = Ok (mkState (chunks st) (current st ++ ss)
                (word_count st + len (words_in ss))).
Proof.
  induction ss as [| s ss IH]; intros st H0 Hfit.
  - simpl. rewrite app_nil_r. unfold words_in, len. simpl.
    rewrite Z.add_0_r. now destruct st.
  - change (words_in (s :: ss)) with (split s ++ words_in ss) in *.
    rewrite len_app in *.
    pose proof (len_nonneg (split s)). pose proof (len_nonneg (words_in ss)).
    simpl. rewrite step_fits by lia. simpl bind.
    rewrite IH by (simpl; lia). simpl.
    rewrite <- app_assoc. simpl. f_equal. f_equal. lia.
Qed.

(** The minimum is read and never acted upon. *)
Lemma step_min_irrelevant a b max_words st s :
  step a max_words st s = step b max_words st s.
Proof.
  unfold step. destruct (len (split s) >? max_words); [reflexivity |].
  destruct (word_count st + len (split s) >? max_words); [| reflexivity].
  destruct (word_count st >=? a), (word_count st >=? b); reflexivity.
Qed.

Lemma run_loop_min_irrelevant a b max_words : forall ss st,
  run_loop a max_words st ss = run_loop b max_words st ss.
Proof.
  induction ss as [| s ss IH]; intros st; [reflexivity |].
  simpl. rewrite (step_min_irrelevant a b).
  destruct (step b max_words st s); simpl; [apply IH | reflexivity].
Qed.

Lemma pack_min_irrelevant a b max_words ss :
  pack a max_words ss = pack b max_words ss.
Proof. unfold pack. now rewrite (run_loop_min_irrelevant a b). Qed.

(** ** Chunks already made are never touched again *)

Lemma fold_emit_prepend ws max_words cs : forall idx cs',
  fold_left (emit_part ws max_words) idx (cs ++ cs')
  = cs ++ fold_left (emit_part ws max_words) idx cs'.
Proof.
  induction idx as [| i idx IH]; intros cs'; [reflexivity |].
  simpl. rewrite <- IH. f_equal. unfold emit_part.
  destruct (truthy _); [now rewrite app_assoc | reflexivity].
Qed.

Lemma emit_windows_prepend ws max_words cs cs' :
  emit_windows ws max_words (cs ++ cs')
  = (w <- emit_windows ws max_words cs' ;; Ok (cs ++ w)).
Proof.
  unfold emit_windows. destruct (range 0 (len ws) max_words); simpl;
    [now rewrite fold_emit_prepend | reflexivity].
Qed.

Lemma flush_prepend cs st : flush (prepend cs st) = prepend cs (flush st).
Proof.
  unfold flush, prepend. simpl.
  destruct (current st); simpl; [reflexivity | now rewrite app_assoc].
Qed.

Lemma step_prepend min_words max_words cs st s :
  step min_words max_words (prepend cs st) s
  = (st' <- step min_words max_words st s ;; Ok (prepend cs st')).
Proof.
  destruct (Z_gt_le_dec (len (split s)) max_words) as [Hbig | Hfit].
  - rewrite !step_oversized by assumption.
    change (current (prepend cs st)) with (current st).
    change (word_count (prepend cs st)) with (word_count st).
    replace (chunks (if truthy (current st)
                     then flush (prepend cs st) else prepend cs st))
      with (cs ++ chunks (if truthy (current st) then flush st else st))
      by (rewrite flush_prepend; now destruct (truthy (current st))).
    rewrite emit_windows_prepend.
    destruct (emit_windows _ _ _); reflexivity.
  - unfold step.
    destruct (Z.gtb_spec (len (split s)) max_words); [lia |].
    change (word_count (prepend cs st)) with (word_count st).
    rewrite flush_prepend.
    destruct (word_count st + len (split s) >? max_words);
      [destruct (word_count st >=? min_words) |]; reflexivity.
Qed.

Lemma run_loop_prepend min_words max_words cs : forall ss st,
  run_loop min_words max_words (prepend cs st) ss
  = (st' <- run_loop min_words max_words st ss ;; Ok (prepend cs st')).
Proof.
  induction ss as [| s ss IH]; intros st; [reflexivity |].
  simpl. rewrite step_prepend.
  destruct (step min_words max_words st s); simpl; [apply IH | reflexivity].
Qed.

Lemma run_loop_app min_words max_words : forall a b st,
  run_loop min_words max_words st (a ++ b)
  = (st' <- run_loop min_words max_words st a ;;
     run_loop min_words max_words st' b).
Proof.
  induction a as [| s a IH]; intros b st; [reflexivity |].
  simpl. destruct (step min_words max_words st s); simpl;
    [apply IH | reflexivity].
Qed.

(** Around an oversized sentence the packing falls apart: what comes
    before is packed and flushed, the windows follow, and what comes
    after is packed from an empty accumulator. *)
Lemma pack_oversized min_words max_words pre s post :
  len (split s) > max_words ->
  pack min_words max_words (pre ++ s :: post)
  = (a <- pack min_words max_words pre ;;
     w <- emit_windows (split s) max_words [] ;;
     b <- pack min_words max_words post ;;
     Ok (a ++ w ++ b)).
Proof.
  intros Hbig. unfold pack. rewrite run_loop_app.
  destruct (run_loop min_words max_words init pre) as [st1 |] eqn:E1;
    [| reflexivity].
  simpl bind. rewrite step_oversized by assumption.
  set (C := chunks (if truthy (current st1) then flush st1 else st1)).
  rewrite <- (app_nil_r C) at 1. rewrite emit_windows_prepend.
  destruct (emit_windows (split s) max_words []) as [w |]; [| reflexivity].
  simpl bind.
  assert (E0 : (if truthy (current st1) then 0 else word_count st1) = 0).
  { destruct (run_loop_sane _ _ _ _ _ init_sane E1) as [_ H].
    destruct (current st1); simpl; auto. }
  rewrite E0.
  replace (mkState (C ++ w) [] 0) with (prepend (C ++ w) init)
    by (unfold prepend; simpl; now rewrite app_nil_r).
  rewrite run_loop_prepend.
  destruct (run_loop min_words max_words init post) as [st3 |];
    [| reflexivity].
  simpl bind. f_equal.
  change (current (prepend (C ++ w) st3)) with (current st3).
  destruct (truthy (current st3)).
  - rewrite flush_prepend. simpl. now rewrite <- app_assoc.
  - simpl. now rewrite <- app_assoc.
Qed.

(** A well-formed string of at most [max_words] words is one chunk. *)
Lemma rechunk min_words max_words c :
  chunk_ok max_words c -> chunk_text c min_words max_words = Ok [c].
Proof.
  intros [Hwf Hlen]. unfold chunk_text, pack.
  pose proof (sentences_wf c) as Hss.
  pose proof (sentences_words c) as Hws. fold (words_in (split_sentences c)) in Hws.
  rewrite run_loop_fits by (simpl; rewrite ?Hws; lia).
  simpl bind. simpl current.
  assert (Hne : split_sentences c <> []).
  { intros E. rewrite E in Hws. apply (wf_split_nonempty c Hwf).
    now rewrite <- Hws. }
  rewrite (proj2 (truthy_true _) Hne). unfold flush. simpl.
  rewrite (proj2 (truthy_true _) Hne).
  destruct (flushed_chunk _ Hss Hne) as (E1 & _).
  rewrite E1, Hws. now rewrite (proj1 Hwf).
Qed.

(** ** The splitter of the specification *)

Lemma after_space c r :
  isspace c = true ->
  join_sp (split (c :: r)) ++ tail_sp (c :: r)
  = join_sp (split r) ++ tail_sp r.
Proof.
  intros Hc. unfold tail_sp. rewrite split_ws_cons by assumption.
  destruct r as [| c' r']; [now rewrite !andb_false_r |].
  now rewrite ends_ws_cons by discriminate.
Qed.

Lemma collapse_runs_shape : forall s,
  collapse_runs s
  = (if starts_ws s then [SPACE] else [])
    ++ join_sp (split s) ++ tail_sp s.
Proof.
  induction s as [| c r IH]; [reflexivity |].
  simpl collapse_runs. simpl starts_ws. destruct (isspace c) eqn:Hc.
  - rewrite after_space by assumption. rewrite IH.
    now destruct (starts_ws r).
  - rewrite IH. exact (eq_sym (after_nonspace c r Hc)).
Qed.

Lemma lstrip_ws_prefix pre s : all_ws pre -> lstrip (pre ++ s) = lstrip s.
Proof.
  induction 1 as [| c r Hc _ IH]; [reflexivity |].
  simpl. now rewrite Hc.
Qed.

Lemma lstrip_all_ws s : all_ws s -> lstrip s = [].
Proof.
  intros H. rewrite <- (app_nil_r s). now rewrite lstrip_ws_prefix.
Qed.

(** Whitespace around a string with whitespace at neither end is what
    [strip] removes. *)
Lemma strip_padded pre x post :
  all_ws pre -> all_ws post ->
  starts_ws x = false -> ends_ws x = false ->
  strip (pre ++ x ++ post) = x.
Proof.
  intros Hpre Hpost Hs He. unfold strip.
  rewrite lstrip_ws_prefix by assumption.
  destruct x as [| c x'].
  - simpl app. rewrite lstrip_all_ws by assumption. reflexivity.
  - rewrite lstrip_id by (simpl; exact Hs).
    unfold rstrip. rewrite rev_app_distr.
    rewrite lstrip_ws_prefix by now apply Forall_rev.
    rewrite lstrip_id by now rewrite starts_ws_rev.
    apply rev_involutive.
Qed.

Lemma spec_normalize_join text : spec_normalize text = join_sp (split text).
Proof.
  unfold spec_normalize. rewrite collapse_runs_shape.
  apply strip_padded.
  - destruct (starts_ws text); repeat constructor.
  - unfold tail_sp. destruct (_ && _); repeat constructor.
  - apply join_starts, split_words.
  - apply join_ends, split_words.
Qed.

(** The scan with a lookbehind and the scan of the specification, from
    any state of the scan. *)
Lemma re_split_spec : forall s p m,
  re_split_from p m s
  = if m then spec_split true s
    else if lookbehind p && starts_ws s then [] :: spec_split true s
         else spec_split false s.
Proof.
  induction s as [| c r IH]; intros p m.
  - destruct m; simpl; [reflexivity |]. now rewrite andb_false_r.
  - simpl re_split_from. simpl starts_ws. simpl spec_split.
    destruct (isspace c) eqn:Hc.
    + destruct m; simpl andb.
      * now rewrite IH.
      * destruct (lookbehind p); simpl.
        -- now rewrite IH.
        -- rewrite IH. simpl lookbehind.
           destruct (is_terminal c) eqn:Ht.
           ++ apply terminal_nonspace in Ht. congruence.
           ++ reflexivity.
    + simpl andb. rewrite !andb_false_r. rewrite IH. simpl lookbehind.
      destruct (is_terminal c && starts_ws r), m; reflexivity.
Qed.

Lemma re_split_terminal_spec s : re_split_terminal s = spec_split false s.
Proof. unfold re_split_terminal. now rewrite re_split_spec. Qed.

(** The sentences, joined by single spaces, are the normalised text. *)
Lemma join_sentences text : join_sp (split_sentences text) = normalize text.
Proof.
  rewrite split_sentences_groups, normalize_join.
  rewrite join_concat by apply group_groups.
  now rewrite concat_group.
Qed.

(** ** Window sizes *)

Lemma ceil_div_spec a b :
  0 < b -> (ceil_div a b - 1) * b < a <= ceil_div a b * b.
Proof.
  intros Hb. unfold ceil_div.
  pose proof (Z.div_mod (a + b - 1) b ltac:(lia)).
  pose proof (Z.mod_pos_bound (a + b - 1) b Hb).
  nia.
Qed.

Lemma last_window_size w m k :
  1 <= m -> 0 <= k < ceil_div w m ->
  Z.min m (w - k * m)
  = if k <? ceil_div w m - 1 then m
    else if w mod m =? 0 then m else w mod m.
Proof.
  intros Hm Hk.
  pose proof (ceil_div_spec w m ltac:(lia)) as Hc.
  pose proof (Z.div_mod w m ltac:(lia)) as Hd.
  pose proof (Z.mod_pos_bound w m ltac:(lia)) as Hr.
  destruct (Z.ltb_spec k (ceil_div w m - 1)).
  - nia.
  - assert (k = ceil_div w m - 1) by lia. subst k.
    destruct (Z.eqb_spec (w mod m) 0) as [E | E].
    + assert (ceil_div w m = w / m) by nia. nia.
    + assert (ceil_div w m = w / m + 1) by nia. nia.
Qed.

Lemma window_sizes ws max_words k :
  1 <= max_words -> Forall word ws ->
  0 <= k < ceil_div (len ws) max_words ->
  let part := nth (Z.to_nat k) (map join_sp (windows ws max_words)) [] in
  split part = slice ws (k * max_words) (k * max_words + max_words)
  /\ len (split part)
     = if k <? ceil_div (len ws) max_words - 1 then max_words
       else if len ws mod max_words =? 0 then max_words
            else len ws mod max_words.
Proof.
  intros Hm Hw Hk part.
  assert (Hkn : (Z.to_nat k < range_len 0 (len ws) max_words)%nat).
  { unfold range_len, ceil_div in *. rewrite Z.sub_0_r. lia. }
  assert (Ep : split part
               = slice ws (k * max_words) (k * max_words + max_words)).
  { unfold part. change (@nil char) with (join_sp []) at 1.
    rewrite map_nth, windows_nth by assumption.
    rewrite Z2Nat.id by lia. apply split_join.
    rewrite <- (Z2Nat.id k) by lia. rewrite <- windows_nth by assumption.
    pose proof (windows_ok ws max_words Hm Hw) as Hok.
    rewrite Forall_forall in Hok. apply Hok, nth_In.
    unfold windows. now rewrite length_map, length_seq. }
  split; [assumption |]. rewrite Ep.
  pose proof (range_len_bound (len ws) max_words _ Hm Hkn) as Hb.
  rewrite Z2Nat.id in Hb by lia.
  rewrite window_len by nia.
  now apply last_window_size.
Qed.

(** ** chunk_text on a valid configuration *)

Lemma chunk_text_ok text min_words max_words :
  1 <= max_words ->
  exists cs, chunk_text text min_words max_words = Ok cs
             /\ Forall (chunk_ok max_words) cs
             /\ words_in cs = split text.
Proof.
  intros Hm. unfold chunk_text.
  destruct (pack_ok min_words max_words (split_sentences text) Hm
              (sentences_wf text)) as (cs & E & Hok & Hw).
  exists cs. split; [assumption | split; [assumption |]].
  rewrite Hw. apply sentences_words.
Qed.

Lemma all_ws_normalize text : all_ws text -> normalize text = [].
Proof.
  intros H. rewrite normalize_join. now rewrite split_all_ws.
Qed.

(** * The claims *)

(** C1 - Lossless repacking.  For every text and every valid
    configuration ([min_words >= 1], [max_words >= min_words]),
    [chunk_text] returns, and the whitespace-delimited words of its
    chunks, concatenated in chunk order, are exactly the words of the
    whitespace-normalised text: none added, dropped, duplicated or
    moved. *)
Theorem chunk_text_lossless text min_words max_words :
  1 <= min_words -> min_words <= max_words ->
  exists cs, chunk_text text min_words max_words = Ok cs
             /\ concat (map split cs) = split (normalize text).
Proof.
  intros H1 H2.
  destruct (chunk_text_ok text min_words max_words ltac:(lia))
    as (cs & E & _ & Hw).
  exists cs. split; [assumption |].
  rewrite split_normalize. exact Hw.
Qed.

Lemma chunk_text_lossless_witness :
  1 <= 1 /\ 1 <= 3
  /\ exists cs, chunk_text sample 1 3 = Ok cs
                /\ concat (map split cs) = split (normalize sample).
Proof.
  split; [lia | split; [lia |]].
  apply (chunk_text_lossless sample 1 3); lia.
Defined.

(** C2 - Bound respected.  For every text and every valid
    configuration, every chunk that [chunk_text] returns holds at most
    [max_words] words; and the windows of an oversized sentence hold
    exactly [max_words] words each, except possibly the last. *)
Theorem chunks_bounded text min_words max_words :
  1 <= min_words -> min_words <= max_words ->
  (exists cs, chunk_text text min_words max_words = Ok cs
              /\ Forall (fun c => len (split c) <= max_words) cs)
  /\ (forall s, len (split s) > max_words ->
        exists parts, emit_windows (split s) max_words [] = Ok parts
          /\ Forall (fun c => len (split c) <= max_words) parts
          /\ forall k, 0 <= k < len parts - 1 ->
               len (split (nth (Z.to_nat k) parts [])) = max_words).
Proof.
  intros H1 H2. split.
  - destruct (chunk_text_ok text min_words max_words ltac:(lia))
      as (cs & E & Hok & _).
    exists cs. split; [assumption |].
    eapply Forall_impl; [| exact Hok]. now intros c [_ H].
  - intros s Hs.
    rewrite emit_windows_ok by (try apply split_words; lia).
    eexists. split; [reflexivity |]. simpl app.
    destruct (window_chunks (split s) max_words ltac:(lia) (split_words s))
      as [Hok _].
    split.
    + eapply Forall_impl; [| exact Hok]. now intros c [_ H].
    + intros k Hk.
      assert (Hn : len (map join_sp (windows (split s) max_words))
                   = ceil_div (len (split s)) max_words).
      { unfold len at 1. rewrite length_map.
        apply windows_count. lia. }
      rewrite Hn in Hk.
      destruct (window_sizes (split s) max_words k ltac:(lia)
                  (split_words s) ltac:(lia)) as [_ Hsz].
      rewrite Hsz. destruct (Z.ltb_spec k (ceil_div (len (split s)) max_words - 1));
        [reflexivity | lia].
Qed.

Lemma chunks_bounded_witness :
  (exists cs, chunk_text sample 1 3 = Ok cs
              /\ Forall (fun c => len (split c) <= 3) cs)
  /\ (forall s, len (split s) > 3 ->
        exists parts, emit_windows (split s) 3 [] = Ok parts
          /\ Forall (fun c => len (split c) <= 3) parts
          /\ forall k, 0 <= k < len parts - 1 ->
               len (split (nth (Z.to_nat k) parts [])) = 3).
Proof. apply (chunks_bounded sample 1 3); lia. Defined.

(** C3 - Oversized-window sizing.  For a sentence of [w] words with
    [w > max_words >= 1], the loop body flushes the accumulator if it is
    not empty and then emits exactly [ceil(w / max_words)] chunks; they
    cover the words of the sentence in order (chunk [k] is
    [words[k * max_words : (k + 1) * max_words]]), each of [max_words]
    words except the last, which has [w mod max_words] words, or
    [max_words] when [w] is a multiple of [max_words]. *)
Theorem oversized_window_sizes min_words max_words st s :
  1 <= max_words -> len (split s) > max_words ->
  let w := len (split s) in
  exists parts,
    step min_words max_words st s
    = Ok (mkState
            (chunks (if truthy (current st) then flush st else st) ++ parts)
            [] (if truthy (current st) then 0 else word_count st))
    /\ len parts = ceil_div w max_words
    /\ concat (map split parts) = split s
    /\ forall k, 0 <= k < ceil_div w max_words ->
         split (nth (Z.to_nat k) parts [])
         = slice (split s) (k * max_words) (k * max_words + max_words)
         /\ len (split (nth (Z.to_nat k) parts []))
            = if k <? ceil_div w max_words - 1 then max_words
              else if w mod max_words =? 0 then max_words
                   else w mod max_words.
Proof.
  intros Hm Hbig w.
  exists (map join_sp (windows (split s) max_words)).
  split; [| split; [| split]].
  - rewrite step_oversized by assumption.
    now rewrite emit_windows_ok by (try apply split_words; lia).
  - unfold len at 1. rewrite length_map. now apply windows_count.
  - apply (window_chunks (split s) max_words Hm (split_words s)).
  - intros k Hk.
    exact (window_sizes (split s) max_words k Hm (split_words s) Hk).
Qed.

Lemma oversized_window_sizes_witness :
  let s := lit "a b c d e f g." in
  let w := len (split s) in
  exists parts,
    step 1 3 init s = Ok (mkState ([] ++ parts) [] 0)
    /\ len parts = ceil_div w 3
    /\ concat (map split parts) = split s
    /\ forall k, 0 <= k < ceil_div w 3 ->
         split (nth (Z.to_nat k) parts [])
         = slice (split s) (k * 3) (k * 3 + 3)
         /\ len (split (nth (Z.to_nat k) parts []))
            = if k <? ceil_div w 3 - 1 then 3
              else if w mod 3 =? 0 then 3 else w mod 3.
Proof.
  apply (oversized_window_sizes 1 3 init (lit "a b c d e f g."));
    [lia | reflexivity].
Defined.

(** C4 - [min_words] is inert.  For every text, every
    [max_words >= 1] and any [a], [b] between 1 and [max_words],
    [chunk_text text a max_words] and [chunk_text text b max_words] are
    equal; and when a sentence that is not oversized overflows the
    accumulator, the accumulator is flushed whatever the running count
    is, below [min_words] or not. *)
Theorem min_words_inert text max_words a b :
  1 <= a <= max_words -> 1 <= b <= max_words ->
  chunk_text text a max_words = chunk_text text b max_words
  /\ forall st s,
       len (split s) <= max_words ->
       word_count st + len (split s) > max_words ->
       step a max_words st s
       = Ok (mkState (chunks (flush st)) [s] (len (split s))).
Proof.
  intros _ _. split.
  - unfold chunk_text. apply pack_min_irrelevant.
  - intros st s. apply step_overflow.
Qed.

Lemma min_words_inert_witness :
  chunk_text sample 1 3 = chunk_text sample 3 3
  /\ forall st s,
       len (split s) <= 3 ->
       word_count st + len (split s) > 3 ->
       step 1 3 st s = Ok (mkState (chunks (flush st)) [s] (len (split s))).
Proof. apply (min_words_inert sample 3 1 3); lia. Defined.

(** C5, as the code has it - The sentence splitter.  The text that
    [split_sentences] splits is the text with every run of whitespace
    collapsed to one space and the ends trimmed.  When that text is not
    empty, the sentences are the pieces between the positions right
    after a [.], [!] or [?] that is followed by whitespace: the
    punctuation stays with the sentence before, the whitespace is
    dropped, and what follows the last boundary is the last sentence.
    When that text is empty, there is no sentence at all. *)
Theorem split_sentences_refines_spec text :
  normalize text = spec_normalize text
  /\ split_sentences text
     = if truthy (spec_normalize text) then spec_split_sentences text
       else [].
Proof.
  assert (E : normalize text = spec_normalize text)
    by now rewrite normalize_join, spec_normalize_join.
  split; [assumption |].
  unfold split_sentences, spec_split_sentences. rewrite <- E.
  destruct (truthy (normalize text)); [| reflexivity].
  apply re_split_terminal_spec.
Qed.

(** C5, as stated, fails on the empty text: splitting the whole text as
    the last sentence gives one empty sentence, and the code returns no
    sentence. *)
Lemma split_sentences_empty_counterexample :
  split_sentences (lit "") = []
  /\ spec_split_sentences (lit "") = [[]]
  /\ split_sentences (lit "") <> spec_split_sentences (lit "").
Proof. repeat split. discriminate. Qed.

(** C6 - The overflow test is strict.  In every state that the loop
    reaches, a sentence of [w] words with [word_count + w = max_words]
    is appended to the accumulator and no chunk is made; and whenever
    the loop body makes a chunk, [word_count + w > max_words]. *)
Theorem exact_fill_kept min_words max_words pre st s :
  run_loop min_words max_words init pre = Ok st ->
  (word_count st + len (split s) = max_words ->
   step min_words max_words st s
   = Ok (mkState (chunks st) (current st ++ [s]) max_words))
  /\ (forall st', step min_words max_words st s = Ok st' ->
        chunks st' <> chunks st ->
        word_count st + len (split s) > max_words).
Proof.
  intros Hreach.
  destruct (run_loop_sane _ _ _ _ _ init_sane Hreach) as [H0 _].
  split.
  - intros Hfill. rewrite step_fits by lia. now rewrite Hfill.
  - intros st' E Hch.
    destruct (Z_gt_le_dec (word_count st + len (split s)) max_words)
      as [Hgt | Hle]; [assumption |].
    rewrite step_fits in E by assumption.
    injection E as <-. now simpl in Hch.
Qed.

Lemma exact_fill_kept_witness :
  let st := mkState [] [lit "a b."] 2 in
  run_loop 1 3 init [lit "a b."] = Ok st
  /\ word_count st + len (split (lit "c.")) = 3
  /\ step 1 3 st (lit "c.") = Ok (mkState [] [lit "a b."; lit "c."] 3).
Proof.
  split; [reflexivity | split; [reflexivity |]].
  apply (exact_fill_kept 1 3 [lit "a b."] (mkState [] [lit "a b."] 2)
           (lit "c.")); reflexivity.
Defined.

(** C7 - Totality.  [split_sentences] has no failing path, and for
    every text and every valid configuration [chunk_text] raises
    nothing: it returns a sequence of chunks, each of them non-empty and
    trimmed. *)
Theorem chunk_text_total text min_words max_words :
  1 <= min_words -> min_words <= max_words ->
  exists cs, chunk_text text min_words max_words = Ok cs
             /\ Forall (fun c => c <> [] /\ strip c = c) cs.
Proof.
  intros H1 H2.
  destruct (chunk_text_ok text min_words max_words ltac:(lia))
    as (cs & E & Hok & _).
  exists cs. split; [assumption |].
  eapply Forall_impl; [| exact Hok].
  intros c [Hwf _]. split; [apply Hwf | now apply wf_strip].
Qed.

Lemma chunk_text_total_witness :
  exists cs, chunk_text sample 1 3 = Ok cs
             /\ Forall (fun c => c <> [] /\ strip c = c) cs.
Proof. apply (chunk_text_total sample 1 3); lia. Defined.

Lemma flush_if_chunks st :
  chunks (if truthy (current st) then flush st else st)
  = chunks st
    ++ (if truthy (current st) then [strip (join_sp (current st))] else []).
Proof.
  destruct (truthy (current st)) eqn:E.
  - unfold flush. simpl. now rewrite E.
  - now rewrite app_nil_r.
Qed.

(** C8 - Oversized output is not merged.  On a valid configuration,
    when the sentences of the text are [pre], then a sentence [s] of
    more than [max_words] words, then [post], the chunks are [a], then
    [w], then [b], where:
    - [a] is what [pre] alone is packed into: the chunks made while
      [pre] was read and then, when the accumulator is not empty, the
      accumulator as one more chunk of its own, its sentences joined by
      spaces and stripped; [a] holds the words of [pre], all of them
      and no other;
    - [w] is the windows of [s]; they hold the words of [s] and no
      other;
    - [b] is what [post] alone is packed into, from an empty
      accumulator; it holds the words of [post] and no other;
    - after [s] the state of the loop is the chunks [a] and [w], an
      empty accumulator and a count of zero;
    and in any state the loop body, on [s], appends the accumulator as
    a chunk of its own when it is not empty, then the windows, and
    leaves the accumulator empty. *)
Theorem oversized_not_merged text min_words max_words pre s post :
  1 <= min_words -> min_words <= max_words ->
  split_sentences text = pre ++ s :: post ->
  len (split s) > max_words ->
  exists a w b,
    pack min_words max_words pre = Ok a
    /\ emit_windows (split s) max_words [] = Ok w
    /\ pack min_words max_words post = Ok b
    /\ chunk_text text min_words max_words = Ok (a ++ w ++ b)
    /\ concat (map split a) = concat (map split pre)
    /\ concat (map split w) = split s
    /\ concat (map split b) = concat (map split post)
    /\ (exists st,
          run_loop min_words max_words init pre = Ok st
          /\ a = chunks st
                 ++ (if truthy (current st)
                     then [strip (join_sp (current st))] else [])
          /\ run_loop min_words max_words init (pre ++ [s])
             = Ok (mkState (a ++ w) [] 0))
    /\ forall st,
         step min_words max_words st s
         = Ok (mkState
                 (chunks st
                  ++ (if truthy (current st)
                      then [strip (join_sp (current st))] else [])
                  ++ w)
                 [] (if truthy (current st) then 0 else word_count st)).
Proof.
  intros H1 H2 Hss Hbig.
  pose proof (sentences_wf text) as Hwf. rewrite Hss in Hwf.
  apply Forall_app in Hwf as [Hpre Hpost].
  inversion Hpost as [| ? ? _ Hpost']; subst.
  destruct (pack_ok min_words max_words pre ltac:(lia) Hpre)
    as (a & Ea & _ & Hwa).
  destruct (pack_ok min_words max_words post ltac:(lia) Hpost')
    as (b & Eb & _ & Hwb).
  pose proof (emit_windows_ok (split s) max_words [] ltac:(lia)
                (split_words s)) as Ew.
  simpl app in Ew.
  assert (Hstep : forall st,
    step min_words max_words st s
    = Ok (mkState
            (chunks st
             ++ (if truthy (current st)
                 then [strip (join_sp (current st))] else [])
             ++ map join_sp (windows (split s) max_words))
            [] (if truthy (current st) then 0 else word_count st))).
  { intros st. rewrite step_oversized by assumption.
    rewrite emit_windows_ok by (try apply split_words; lia).
    now rewrite flush_if_chunks, <- app_assoc. }
  exists a, (map join_sp (windows (split s) max_words)), b.
  split; [assumption | split; [assumption | split; [assumption |]]].
  split; [| split; [| split; [| split; [| split]]]].
  - unfold chunk_text. rewrite Hss, pack_oversized by assumption.
    now rewrite Ea, Ew, Eb.
  - exact Hwa.
  - apply (window_chunks (split s) max_words ltac:(lia) (split_words s)).
  - exact Hwb.
  - unfold pack in Ea.
    destruct (run_loop min_words max_words init pre) as [st |] eqn:E1;
      [| discriminate].
    simpl in Ea. injection Ea as Ea. rewrite flush_if_chunks in Ea.
    exists st. split; [reflexivity | split; [now symmetry |]].
    rewrite run_loop_app, E1. simpl. rewrite Hstep. simpl.
    destruct (run_loop_sane _ _ _ _ _ init_sane E1) as [_ H0].
    rewrite <- Ea, <- app_assoc. f_equal. f_equal.
    destruct (current st); simpl; auto.
  - exact Hstep.
Qed.

Lemma oversized_not_merged_witness :
  exists a w b,
    pack 1 3 [lit "x."] = Ok a
    /\ emit_windows (split (lit "a b c d e f g.")) 3 [] = Ok w
    /\ pack 1 3 [lit "y z."] = Ok b
    /\ chunk_text sample 1 3 = Ok (a ++ w ++ b)
    /\ concat (map split a) = concat (map split [lit "x."])
    /\ concat (map split w) = split (lit "a b c d e f g.")
    /\ concat (map split b) = concat (map split [lit "y z."])
    /\ (exists st,
          run_loop 1 3 init [lit "x."] = Ok st
          /\ a = chunks st
                 ++ (if truthy (current st)
                     then [strip (join_sp (current st))] else [])
          /\ run_loop 1 3 init ([lit "x."] ++ [lit "a b c d e f g."])
             = Ok (mkState (a ++ w) [] 0))
    /\ forall st,
         step 1 3 st (lit "a b c d e f g.")
         = Ok (mkState
                 (chunks st
                  ++ (if truthy (current st)
                      then [strip (join_sp (current st))] else [])
                  ++ w)
                 [] (if truthy (current st) then 0 else word_count st)).
Proof.
  apply (oversized_not_merged sample 1 3 [lit "x."] (lit "a b c d e f g.")
           [lit "y z."]); [lia | lia | reflexivity | reflexivity].
Defined.

(** C9 - Empty input.  For every text whose whitespace-normalised form
    is empty, the empty string and the strings of whitespace among
    them, and every valid configuration, [chunk_text] returns no
    chunk. *)
Theorem empty_input text min_words max_words :
  1 <= min_words -> min_words <= max_words ->
  normalize text = [] ->
  chunk_text text min_words max_words = Ok [].
Proof.
  intros _ _ E. unfold chunk_text, split_sentences. now rewrite E.
Qed.

Lemma empty_input_witness :
  normalize [32; 9; 10; 160]%N = []
  /\ chunk_text [32; 9; 10; 160]%N 120 160 = Ok [].
Proof.
  split; [reflexivity |].
  apply (empty_input [32; 9; 10; 160]%N 120 160); [lia | lia | reflexivity].
Defined.

(** C10 - Re-chunking a chunk is the identity.  For every text and
    every valid configuration, every chunk [c] that [chunk_text] returns
    is non-empty, trimmed, made of at least one and at most [max_words]
    words separated by single spaces, and
    [chunk_text c min_words max_words] returns [[c]]. *)
Theorem rechunk_identity text min_words max_words cs c :
  1 <= min_words -> min_words <= max_words ->
  chunk_text text min_words max_words = Ok cs -> In c cs ->
  chunk_text c min_words max_words = Ok [c]
  /\ c <> [] /\ strip c = c /\ join_sp (split c) = c
  /\ 1 <= len (split c) <= max_words.
Proof.
  intros H1 H2 E Hin.
  destruct (chunk_text_ok text min_words max_words ltac:(lia))
    as (cs' & E' & Hok & _).
  rewrite E in E'. injection E' as <-.
  rewrite Forall_forall in Hok. specialize (Hok c Hin).
  split; [now apply rechunk |].
  destruct Hok as [Hwf Hlen].
  split; [apply Hwf | split; [now apply wf_strip | split; [apply Hwf |]]].
  pose proof (wf_split_nonempty c Hwf) as Hne.
  destruct (split c); [congruence |].
  unfold len in *. simpl length in *. lia.
Qed.

Lemma rechunk_identity_witness :
  chunk_text (lit "a b c") 1 3 = Ok [lit "a b c"]
  /\ lit "a b c" <> [] /\ strip (lit "a b c") = lit "a b c"
  /\ join_sp (split (lit "a b c")) = lit "a b c"
  /\ 1 <= len (split (lit "a b c")) <= 3.
Proof.
  apply (rechunk_identity sample 1 3
           [lit "x."; lit "a b c"; lit "d e f"; lit "g."; lit "y z."]
           (lit "a b c")); [lia | lia | reflexivity |].
  right. left. reflexivity.
Defined.

(** * Further properties of chunk_text.py *)

(** ** Sentences *)

Lemma group_open ws : Forall (fun g => open_group g = true) (group ws).
Proof.
  induction ws as [| w r IH]; [constructor |]. simpl.
  destruct (ends_terminal w) eqn:Hw.
  - constructor; [reflexivity | assumption].
  - pose proof (group_groups r) as Hg.
    destruct (group r) as [| g gs]; simpl.
    + constructor; [reflexivity | constructor].
    + inversion IH; subst. inversion Hg; subst.
      constructor; [| assumption].
      destruct g; [congruence |]. simpl. rewrite Hw. assumption.
Qed.

Lemma group_closed ws : closed_groups (group ws).
Proof.
  induction ws as [| w r IH]; [exact I |]. simpl group.
  destruct (ends_terminal w) eqn:Hw.
  - destruct (group r) as [| g gs] eqn:E; [exact I |].
    split; assumption.
  - pose proof (group_groups r) as Hg.
    destruct (group r) as [| g gs]; [exact I |].
    inversion Hg; subst. simpl push_word.
    destruct gs as [| g' gs']; [exact I |].
    destruct IH as [Hc Hr]. split; [| assumption].
    destruct g; [congruence | exact Hc].
Qed.

Lemma closed_groups_inner : forall gs1 g gs2,
  closed_groups (gs1 ++ g :: gs2) -> gs2 <> [] ->
  ends_terminal (last g []) = true.
Proof.
  induction gs1 as [| h gs1 IH]; intros g gs2 H Hne.
  - destruct gs2; [congruence |]. apply H.
  - simpl app in H. destruct (gs1 ++ g :: gs2) as [| x xs] eqn:E.
    + destruct gs1; discriminate.
    + change (ends_terminal (last h []) = true /\ closed_groups (x :: xs))
        in H.
      destruct H as [_ H]. rewrite <- E in H. exact (IH g gs2 H Hne).
Qed.

Lemma group_of_open g :
  g <> [] -> open_group g = true -> group g = [g].
Proof.
  induction g as [| w r IH]; [congruence |]. intros _ Ho.
  destruct r as [| w' r'].
  - simpl. now destruct (ends_terminal w).
  - simpl in Ho. apply andb_true_iff in Ho as [Hw Hr].
    apply negb_true_iff in Hw.
    change (group (w :: w' :: r')) with
      (if ends_terminal w then [w] :: group (w' :: r')
       else push_word w (group (w' :: r'))).
    rewrite Hw, IH; [reflexivity | discriminate | exact Hr].
Qed.

Lemma last_char_app a b : b <> [] -> last_char (a ++ b) = last_char b.
Proof.
  intros Hb. induction a as [| x a IH]; [reflexivity |].
  simpl app. destruct (a ++ b) eqn:E.
  - apply app_eq_nil in E as [_ E]. congruence.
  - simpl. exact IH.
Qed.

Lemma last_char_join g :
  Forall word g -> last_char (join_sp g) = last_char (last g []).
Proof.
  induction 1 as [| w r Hw Hr IH]; [reflexivity |].
  destruct r as [| w' r']; [reflexivity |].
  rewrite join_sp_cons by discriminate.
  rewrite last_char_app by discriminate.
  change (last (w :: w' :: r') []) with (last (w' :: r') []).
  rewrite <- IH.
  pose proof (join_sp_nonempty (w' :: r') Hr ltac:(discriminate)) as Hne.
  destruct (join_sp (w' :: r')); [congruence | reflexivity].
Qed.

Lemma has_boundary_word w rest :
  Forall nonspace w -> w <> [] ->
  has_boundary (w ++ rest)
  = (lookbehind (last_char w) && starts_ws rest) || has_boundary rest.
Proof.
  intros Hw Hne. induction Hw as [| c r Hc Hr IH]; [congruence |].
  destruct r as [| c' r'].
  - reflexivity.
  - change (has_boundary ((c :: c' :: r') ++ rest)) with
      ((is_terminal c && isspace c') || has_boundary ((c' :: r') ++ rest)).
    change (last_char (c :: c' :: r')) with (last_char (c' :: r')).
    inversion Hr as [| ? ? Hc' _]; subst. unfold nonspace in Hc'.
    rewrite Hc', andb_false_r. simpl orb. apply IH. discriminate.
Qed.

Lemma has_boundary_join g :
  Forall word g -> open_group g = true -> has_boundary (join_sp g) = false.
Proof.
  induction 1 as [| w r Hw Hr IH]; [reflexivity |]. intros Ho.
  destruct r as [| w' r'].
  - simpl join_sp. rewrite <- (app_nil_r w).
    rewrite has_boundary_word by apply Hw.
    simpl. now rewrite andb_false_r.
  - change (open_group (w :: w' :: r')) with
      (negb (ends_terminal w) && open_group (w' :: r')) in Ho.
    apply andb_true_iff in Ho as [Hn Ho].
    apply negb_true_iff in Hn. unfold ends_terminal in Hn.
    rewrite join_sp_cons by discriminate.
    rewrite has_boundary_word by apply Hw.
    rewrite Hn. simpl andb. simpl orb.
    change (has_boundary (SPACE :: join_sp (w' :: r'))) with
      ((is_terminal SPACE && starts_ws (join_sp (w' :: r')))
       || has_boundary (join_sp (w' :: r'))).
    exact (IH Ho).
Qed.

(** The group of words behind a sentence. *)
Lemma sentence_group text pre s post :
  split_sentences text = pre ++ s :: post ->
  exists g, s = join_sp g /\ g <> [] /\ Forall word g
            /\ open_group g = true
            /\ (post <> [] -> ends_terminal (last g []) = true).
Proof.
  rewrite split_sentences_groups. intros E.
  apply map_eq_app in E as (gs1 & gs2' & Eg & E1 & E2).
  apply map_eq_cons in E2 as (g & gs2 & E2 & Es & Ep). subst gs2'.
  pose proof (group_groups (split text)) as Hne.
  pose proof (group_words _ (split_words text)) as Hw.
  pose proof (group_open (split text)) as Ho.
  pose proof (group_closed (split text)) as Hc.
  rewrite Eg in Hne, Hw, Ho, Hc.
  apply Forall_app in Hne as [_ Hne]. inversion Hne; subst.
  apply Forall_app in Hw as [_ Hw]. inversion Hw; subst.
  apply Forall_app in Ho as [_ Ho]. inversion Ho; subst.
  exists g. repeat split; try assumption.
  intros Hp. apply (closed_groups_inner gs1 g gs2 Hc).
  intros ->. now apply Hp.
Qed.

(** ** chunk_text and the words of the text *)

Lemma chunk_text_words a b min_words max_words :
  split a = split b ->
  chunk_text a min_words max_words = chunk_text b min_words max_words.
Proof.
  intros E. unfold chunk_text. now rewrite !split_sentences_groups, E.
Qed.

Lemma count_bounds max_words cs :
  Forall (chunk_ok max_words) cs ->
  len cs <= len (words_in cs) <= len cs * max_words.
Proof.
  induction 1 as [| c cs [Hwf Hlen] _ IH].
  - unfold words_in, len. simpl. lia.
  - change (c :: cs) with ([c] ++ cs).
    rewrite words_in_app, words_in_one, !len_app.
    pose proof (wf_split_nonempty c Hwf) as Hne.
    assert (1 <= len (split c))
      by (destruct (split c); [congruence | unfold len; simpl; lia]).
    change (len [c]) with 1. lia.
Qed.

(** ** Invalid configurations *)

Lemma range_negative stop step :
  step < 0 -> 0 <= stop -> range 0 stop step = Ok [].
Proof.
  intros Hs Hstop. unfold range.
  destruct (Z.eqb_spec step 0); [lia |].
  destruct (Z.ltb_spec 0 step); [lia |].
  replace (Z.to_nat (0 - stop)) with 0%nat by lia. reflexivity.
Qed.

Lemma run_loop_negative min_words max_words :
  max_words < 0 ->
  forall ss, run_loop min_words max_words init ss = Ok init.
Proof.
  intros Hm. induction ss as [| s ss IH]; [reflexivity |].
  simpl. rewrite step_oversized
    by (pose proof (len_nonneg (split s)); lia).
  unfold emit_windows. rewrite range_negative by (try apply len_nonneg; lia).
  simpl. exact IH.
Qed.

Lemma step_zero min_words st s :
  split s <> [] -> step min_words 0 st s = ValueError.
Proof.
  intros Hne. rewrite step_oversized.
  - reflexivity.
  - destruct (split s); [congruence | unfold len; simpl; lia].
Qed.

(** X1 - [split_sentences] and [chunk_text] read the words of the text
    and nothing else: two texts with the same words, however the
    whitespace between them differs, have the same sentences and the
    same chunks (or the same error). *)
Theorem chunking_reads_words_only a b min_words max_words :
  split a = split b ->
  split_sentences a = split_sentences b
  /\ chunk_text a min_words max_words = chunk_text b min_words max_words.
Proof.
  intros E. split; [| now apply chunk_text_words].
  now rewrite !split_sentences_groups, E.
Qed.

Lemma chunking_reads_words_only_witness :
  split_sentences [9; 97; 32; 32; 98; 46; 10; 99]%N
  = split_sentences (lit "a b. c")
  /\ chunk_text [9; 97; 32; 32; 98; 46; 10; 99]%N 1 2
     = chunk_text (lit "a b. c") 1 2.
Proof.
  apply (chunking_reads_words_only [9; 97; 32; 32; 98; 46; 10; 99]%N
           (lit "a b. c") 1 2).
  reflexivity.
Defined.

(** X2 - Round trip of the chunks.  With [max_words >= 1], the chunks
    joined by single spaces are the normalised text, and chunking that
    joined text again gives the same chunks. *)
Theorem chunks_join_round_trip text min_words max_words cs :
  1 <= max_words ->
  chunk_text text min_words max_words = Ok cs ->
  join_sp cs = normalize text
  /\ chunk_text (join_sp cs) min_words max_words = Ok cs.
Proof.
  intros Hm E.
  destruct (chunk_text_ok text min_words max_words Hm)
    as (cs' & E' & Hok & Hw).
  rewrite E in E'. injection E' as <-.
  assert (Hj : join_sp cs = normalize text).
  { rewrite join_wf, Hw, normalize_join; [reflexivity |].
    eapply Forall_impl; [| exact Hok]. now intros c [H _]. }
  split; [assumption |].
  rewrite <- E. apply chunk_text_words.
  rewrite Hj. apply split_normalize.
Qed.

Lemma chunks_join_round_trip_witness :
  let cs := [lit "x."; lit "a b c"; lit "d e f"; lit "g."; lit "y z."] in
  join_sp cs = normalize sample /\ chunk_text (join_sp cs) 1 3 = Ok cs.
Proof.
  apply (chunks_join_round_trip sample 1 3); [lia | reflexivity].
Defined.

(** X3 - The number of chunks.  With [max_words >= 1], a text of [w]
    words gives at least [ceil(w / max_words)] chunks and at most [w]
    chunks. *)
Theorem chunk_count_bounds text min_words max_words cs :
  1 <= max_words ->
  chunk_text text min_words max_words = Ok cs ->
  ceil_div (len (split text)) max_words <= len cs <= len (split text).
Proof.
  intros Hm E.
  destruct (chunk_text_ok text min_words max_words Hm)
    as (cs' & E' & Hok & Hw).
  rewrite E in E'. injection E' as <-.
  pose proof (count_bounds max_words cs Hok) as Hb. rewrite Hw in Hb.
  split; [| lia]. unfold ceil_div.
  assert ((len (split text) + max_words - 1) / max_words < len cs + 1)
    by (apply Z.div_lt_upper_bound; nia).
  lia.
Qed.

Lemma chunk_count_bounds_witness :
  ceil_div (len (split sample)) 3
  <= len [lit "x."; lit "a b c"; lit "d e f"; lit "g."; lit "y z."]
  <= len (split sample).
Proof.
  apply (chunk_count_bounds sample 1 3); [lia | reflexivity].
Defined.

(** X4 - A negative [max_words] loses the text: every sentence counts
    as oversized and its range of windows is empty, so [chunk_text]
    returns no chunk, whatever the text. *)
Theorem negative_max_words_drops_text text min_words max_words :
  max_words < 0 -> chunk_text text min_words max_words = Ok [].
Proof.
  intros Hm. unfold chunk_text, pack.
  now rewrite run_loop_negative.
Qed.

Lemma negative_max_words_drops_text_witness :
  chunk_text sample 1 (-1) = Ok [].
Proof. apply (negative_max_words_drops_text sample 1 (-1)). lia. Defined.

(** X5 - When [chunk_text] raises.  The [ValueError] of the zero step
    is the only failure: [chunk_text] raises exactly when [max_words]
    is 0 and the text has at least one word. *)
Theorem chunk_text_raises_iff text min_words max_words :
  chunk_text text min_words max_words = ValueError
  <-> max_words = 0 /\ split text <> [].
Proof.
  destruct (Z_lt_le_dec max_words 0) as [Hneg | Hge].
  - unfold chunk_text, pack. rewrite run_loop_negative by assumption. simpl.
    split; [discriminate | lia].
  - destruct (Z.eq_dec max_words 0) as [-> | Hnz].
    + unfold chunk_text. rewrite split_sentences_groups.
      pose proof (group_groups (split text)) as Hg.
      pose proof (group_words _ (split_words text)) as Hw.
      pose proof (group_nonempty (split text)) as Hne.
      destruct (split text) as [| w ws] eqn:E.
      * simpl. split; [discriminate | intros [_ H]; congruence].
      * destruct (group (w :: ws)) as [| g gs];
          [exfalso; now apply Hne |].
        inversion Hg; subst. inversion Hw; subst.
        unfold pack. simpl run_loop.
        rewrite step_zero by now rewrite split_join.
        simpl. split; [intros _; split; [reflexivity | discriminate]
                      | reflexivity].
    + destruct (chunk_text_ok text min_words max_words ltac:(lia))
        as (cs & E & _).
      rewrite E. split; [discriminate | lia].
Qed.

(** X6 - Round trip of the sentences.  The sentences joined by single
    spaces are the normalised text, and the normalised text has the
    same sentences as the text. *)
Theorem sentences_round_trip text :
  join_sp (split_sentences text) = normalize text
  /\ split_sentences (normalize text) = split_sentences text.
Proof.
  split; [apply join_sentences |].
  now rewrite !split_sentences_groups, split_normalize.
Qed.

(** X7 - The shape of a sentence.  Every sentence is non-empty, has its
    words separated by single spaces with no whitespace at either end,
    and holds no [.], [!] or [?] followed by whitespace; and every
    sentence but the last ends with [.], [!] or [?]. *)
Theorem sentence_shape text pre s post :
  split_sentences text = pre ++ s :: post ->
  s <> [] /\ join_sp (split s) = s
  /\ starts_ws s = false /\ ends_ws s = false
  /\ has_boundary s = false
  /\ (post <> [] -> lookbehind (last_char s) = true).
Proof.
  intros E.
  destruct (sentence_group text pre s post E)
    as (g & -> & Hne & Hw & Ho & Hc).
  destruct (wf_join g Hw Hne) as [Hj Hn].
  split; [assumption | split; [assumption |]].
  split; [now apply join_starts | split; [now apply join_ends |]].
  split; [now apply has_boundary_join |].
  intros Hp. rewrite last_char_join by assumption. now apply Hc.
Qed.

Lemma sentence_shape_witness :
  let s := lit "Hi there!" in
  s <> [] /\ join_sp (split s) = s
  /\ starts_ws s = false /\ ends_ws s = false
  /\ has_boundary s = false
  /\ ([lit "You?"; lit "ok"] <> [] -> lookbehind (last_char s) = true).
Proof.
  apply (sentence_shape (lit "Hi there!  You? ok") [] (lit "Hi there!")
           [lit "You?"; lit "ok"]).
  reflexivity.
Defined.

(** X8 - Splitting a sentence again.  Every sentence that
    [split_sentences] returns is one sentence: splitting it gives the
    sentence itself and nothing else. *)
Theorem sentence_resplit text s :
  In s (split_sentences text) -> split_sentences s = [s].
Proof.
  intros Hin. apply in_split in Hin as (pre & post & E).
  destruct (sentence_group text pre s post E)
    as (g & -> & Hne & Hw & Ho & _).
  rewrite split_sentences_groups, split_join by assumption.
  now rewrite group_of_open.
Qed.

Lemma sentence_resplit_witness :
  split_sentences (lit "You?") = [lit "You?"].
Proof.
  apply (sentence_resplit (lit "Hi there!  You? ok") (lit "You?")).
  right. left. reflexivity.
Defined.

(** * Properties of the loop of main *)

(** ** The names of the files *)

Lemma to_string_lit x : to_string (lit x) = x.
Proof.
  unfold to_string, lit. rewrite map_map.
  rewrite (map_ext _ (fun a => a)) by apply ascii_N_embedding.
  rewrite map_id. apply string_of_list_ascii_of_string.
Qed.

Lemma value_digits n : 0 <= n -> value (digits n) = Some (Z.to_N n).
Proof.
  intros _. unfold value, digits. rewrite to_string_lit.
  assert (Hnil : N.to_uint (Z.to_N n) <> Decimal.Nil).
  { destruct (Z.to_N n); simpl; [discriminate |].
    apply DecimalPos.Unsigned.to_uint_nonnil. }
  replace (DecimalString.NilZero.string_of_uint (N.to_uint (Z.to_N n)))
    with (DecimalString.NilEmpty.string_of_uint (N.to_uint (Z.to_N n)))
    by (destruct (N.to_uint (Z.to_N n)); [congruence | reflexivity ..]).
  rewrite DecimalString.NilEmpty.usu. simpl.
  now rewrite DecimalN.Unsigned.of_to.
Qed.








(** ** The order of the names *)

Lemma str_ltb_prefix p a b : str_ltb (p ++ a) (p ++ b) = str_ltb a b.
Proof.
  induction p as [| x p IH]; [reflexivity |].
  simpl. now rewrite N.ltb_irrefl, N.eqb_refl, IH.
Qed.

Lemma format_02d_sorted :
  forall a b : nat, (a < b)%nat -> (b < 100)%nat ->
  str_ltb (format_02d (Z.of_nat a) ++ lit ".txt")
          (format_02d (Z.of_nat b) ++ lit ".txt") = true
  /\ length (format_02d (Z.of_nat a)) = 2%nat
  /\ length (format_02d (Z.of_nat b)) = 2%nat.
Proof.
  assert (H : forallb (fun a =>
                forallb (fun b =>
                  str_ltb (format_02d (Z.of_nat a) ++ lit ".txt")
                          (format_02d (Z.of_nat b) ++ lit ".txt")
                  && (Nat.eqb (length (format_02d (Z.of_nat a))) 2
                      && Nat.eqb (length (format_02d (Z.of_nat b))) 2))
                  (seq (S a) (99 - a)))
                (seq 0 100) = true) by (vm_compute; reflexivity).
  intros a b Hab Hb.
  rewrite forallb_forall in H.
  specialize (H a ltac:(apply in_seq; lia)).
  rewrite forallb_forall in H.
  specialize (H b ltac:(apply in_seq; lia)).
  apply andb_true_iff in H as [H1 H2].
  apply andb_true_iff in H2 as [H2 H3].
  apply Nat.eqb_eq in H2, H3. now repeat split.
Qed.

(** ** The strings written *)

Lemma part_requests_texts prefix : forall cs i,
  Forall wf cs ->
  map snd (part_requests prefix i cs) = map (fun c => c ++ [10%N]) cs.
Proof.
  induction cs as [| c r IH]; intros i H; [reflexivity |].
  inversion H; subst. simpl. rewrite wf_strip by assumption.
  now rewrite IH.
Qed.

Lemma strip_newline c : wf c -> strip (c ++ [10%N]) = c.
Proof.
  intros [E _].
  change (c ++ [10%N]) with ([] ++ c ++ [10%N]).
  apply strip_padded.
  - constructor.
  - repeat constructor.
  - rewrite <- E. apply join_starts, split_words.
  - rewrite <- E. apply join_ends, split_words.
Qed.

Lemma split_newline c : split (c ++ [10%N]) = split c.
Proof. apply split_ws_suffix. repeat constructor. Qed.

Lemma in_cons_head c x (l : list str) w :
  In w (cons_head x l) -> In c w ->
  c = x \/ exists w', In w' l /\ In c w'.
Proof.
  destruct l as [| p r]; simpl; intros [<- | Hin] Hc.
  - destruct Hc as [<- | []]. now left.
  - contradiction.
  - destruct Hc as [<- | Hc]; [now left |].
    right. exists p. split; [now left | assumption].
  - right. exists w. split; [now right | assumption].
Qed.

(** The characters of a word are characters of the string. *)
Lemma in_split : forall s w c, In w (split s) -> In c w -> In c s.
Proof.
  induction s as [| x r IH]; intros w c Hw Hc; [contradiction |].
  destruct (isspace x) eqn:Hx.
  - rewrite split_ws_cons in Hw by assumption. right. now apply IH with w.
  - destruct r as [| y r'].
    + simpl in Hw. rewrite Hx in Hw. destruct Hw as [<- | []].
      destruct Hc as [<- | []]. now left.
    + rewrite split_cons2, Hx in Hw. destruct (isspace y).
      * destruct Hw as [<- | Hw].
        -- destruct Hc as [<- | []]. now left.
        -- right. now apply IH with w.
      * destruct (in_cons_head c x _ w Hw Hc) as [-> | (w' & Hw' & Hc')].
        -- now left.
        -- right. now apply IH with w'.
Qed.

Lemma in_join_sp : forall ws c,
  In c (join_sp ws) -> c = SPACE \/ exists w, In w ws /\ In c w.
Proof.
  induction ws as [| w r IH]; intros c Hc; [contradiction |].
  destruct r as [| w' r'].
  - right. exists w. split; [now left | assumption].
  - rewrite join_sp_cons in Hc by discriminate.
    apply in_app_or in Hc as [Hc | [<- | Hc]].
    + right. exists w. split; [now left | assumption].
    + now left.
    + destruct (IH c Hc) as [-> | (w0 & Hw0 & Hc0)]; [now left |].
      right. exists w0. split; [now right | assumption].
Qed.

(** Every character of a chunk is a character of the text or a
    space. *)
Lemma chunk_chars text cs c x :
  words_in cs = split text -> Forall wf cs -> In c cs -> In x c ->
  In x text \/ x = SPACE.
Proof.
  intros Hw Hwf Hc Hx. rewrite Forall_forall in Hwf.
  destruct (Hwf c Hc) as [Ej _]. rewrite <- Ej in Hx.
  apply in_join_sp in Hx as [-> | (w & Hin & Hxw)]; [now right |].
  left. apply in_split with w; [| assumption].
  rewrite <- Hw. unfold words_in. apply in_concat.
  exists (split c). split; [now apply in_map | assumption].
Qed.


(** X10 - The order of the file names.  For indices from 1 to 99 the
    names have two digits and grow with the index in the order of
    strings, so that the files sorted by name are the chunks in order;
    from 100 on this fails: the name of part 100 comes before the name
    of part 11. *)
Theorem part_names_sorted prefix i j :
  1 <= i -> i < j -> j <= 99 ->
  str_ltb (part_name prefix i) (part_name prefix j) = true
  /\ length (part_name prefix i) = length (part_name prefix j)
  /\ str_ltb (part_name prefix 100) (part_name prefix 11) = true.
Proof.
  intros Hi Hij Hj.
  destruct (format_02d_sorted (Z.to_nat i) (Z.to_nat j)
              ltac:(lia) ltac:(lia)) as (Hlt & Hli & Hlj).
  rewrite !Z2Nat.id in * by lia.
  unfold part_name. rewrite !str_ltb_prefix.
  split; [assumption | split].
  - rewrite !length_app, Hli, Hlj. reflexivity.
  - reflexivity.
Qed.

Lemma part_names_sorted_witness :
  str_ltb (part_name (lit "voice") 9) (part_name (lit "voice") 10) = true
  /\ length (part_name (lit "voice") 9) = length (part_name (lit "voice") 10)
  /\ str_ltb (part_name (lit "voice") 100) (part_name (lit "voice") 11)
     = true.
Proof. apply (part_names_sorted (lit "voice") 9 10); lia. Defined.

(** X11 - The strings written hold the chunks.  With
    [max_words >= 1], the string that the loop of [main] passes to
    [f.write] for each chunk is the chunk followed by one newline: the
    [strip] of [main] changes nothing.  Stripping that string gives the
    chunk back; the words of these strings, in order, are the words of
    the text; and every character of such a string is a character of
    the text, a space or the final newline. *)
Theorem part_texts_hold_chunks text prefix min_words max_words cs :
  1 <= max_words ->
  chunk_text text min_words max_words = Ok cs ->
  let requests := part_requests prefix 1 cs in
  map snd requests = map (fun c => c ++ [10%N]) cs
  /\ map (fun r => strip (snd r)) requests = cs
  /\ concat (map (fun r => split (snd r)) requests) = split text
  /\ forall r x, In r requests -> In x (snd r) ->
       In x text \/ x = SPACE \/ x = 10%N.
Proof.
  intros Hm E requests.
  destruct (chunk_text_ok text min_words max_words Hm)
    as (cs' & E' & Hok & Hw).
  rewrite E in E'. injection E' as <-.
  assert (Hwf : Forall wf cs)
    by (eapply Forall_impl; [| exact Hok]; now intros c [H _]).
  pose proof (part_requests_texts prefix cs 1 Hwf) as Ht.
  fold requests in Ht.
  split; [assumption |].
  split; [| split].
  - rewrite <- (map_map snd), Ht, map_map.
    rewrite <- (map_id cs) at 2. apply map_ext_Forall.
    eapply Forall_impl; [| exact Hwf]. intros c. apply strip_newline.
  - rewrite <- (map_map snd), Ht, map_map.
    rewrite <- Hw. unfold words_in. f_equal.
    apply map_ext. intros c. apply split_newline.
  - intros r x Hr Hx.
    assert (Hs : In (snd r) (map snd requests)) by now apply in_map.
    rewrite Ht in Hs. apply in_map_iff in Hs as (c & Ec & Hc).
    rewrite <- Ec in Hx. apply in_app_or in Hx as [Hx | [<- | []]].
    + destruct (chunk_chars text cs c x Hw Hwf Hc Hx) as [H | H];
        [now left | right; now left].
    + right. now right.
Qed.

Lemma part_texts_hold_chunks_witness :
  let cs := [lit "x."; lit "a b c"; lit "d e f"; lit "g."; lit "y z."] in
  let requests := part_requests (lit "voice") 1 cs in
  map snd requests = map (fun c => c ++ [10%N]) cs
  /\ map (fun r => strip (snd r)) requests = cs
  /\ concat (map (fun r => split (snd r)) requests) = split sample
  /\ forall r x, In r requests -> In x (snd r) ->
       In x sample \/ x = SPACE \/ x = 10%N.
Proof.
  apply (part_texts_hold_chunks sample (lit "voice") 1 3);
    [lia | reflexivity].
Defined.

(** X12 - No word, no file.  With [max_words >= 1], the loop of [main]
    has a file to open exactly when the text has a word: for a text of
    whitespace only, [chunk_text] returns no chunk and the loop opens
    and writes nothing. *)
Theorem no_request_iff_no_word text prefix min_words max_words cs :
  1 <= max_words ->
  chunk_text text min_words max_words = Ok cs ->
  part_requests prefix 1 cs = [] <-> split text = [].
Proof.
  intros Hm E.
  destruct (chunk_text_ok text min_words max_words Hm)
    as (cs' & E' & Hok & Hw).
  rewrite E in E'. injection E' as <-.
  pose proof (count_bounds max_words cs Hok) as Hb.
  rewrite <- Hw. split.
  - destruct cs; [reflexivity | discriminate].
  - intros Hnil. rewrite Hnil in Hb.
    destruct cs; [reflexivity |]. unfold len in Hb. simpl in Hb. lia.
Qed.

Lemma no_request_iff_no_word_witness :
  part_requests (lit "voice") 1 [] = [] <-> split (lit "  ") = [].
Proof.
  apply (no_request_iff_no_word (lit "  ") (lit "voice") 120 160 []);
    [lia | reflexivity].
Defined.

(** * Properties of the other scripts *)

(** ** Windows of a fixed size *)

Lemma fold_append {A} (f : Z -> A) : forall idx acc,
  fold_left (fun cs i => cs ++ [f i]) idx acc = acc ++ map f idx.
Proof.
  induction idx as [| i idx IH]; intros acc.
  - simpl. now rewrite app_nil_r.
  - simpl. rewrite IH. now rewrite <- app_assoc.
Qed.

Lemma windows_sizes ws max_words :
  1 <= max_words ->
  Forall (fun win => 1 <= len win <= max_words) (windows ws max_words).
Proof.
  intros Hm. unfold windows. apply Forall_map, Forall_forall.
  intros k Hk. apply in_seq in Hk. simpl in Hk.
  pose proof (range_len_bound (len ws) max_words k Hm ltac:(lia)) as Hlt.
  rewrite window_len by nia. lia.
Qed.

Lemma range_windows ws size :
  1 <= size ->
  (idx <- range 0 (len ws) size ;;
   Ok (map (fun i => slice ws i (i + size)) idx))
  = Ok (windows ws size).
Proof.
  intros Hs. rewrite range_positive by (try apply len_nonneg; lia).
  simpl bind. now rewrite map_map.
Qed.

Lemma voice_chunks_windows script_body cta :
  voice_chunks script_body cta
  = Ok (map join_sp (windows (split (script_body ++ lit " " ++ cta)) 140)).
Proof.
  unfold voice_chunks.
  rewrite range_positive by (try apply len_nonneg; lia).
  simpl bind. rewrite fold_append. simpl app.
  unfold windows. now rewrite !map_map.
Qed.

(** X13 - The chunks of the voice text are windows.  The dry run cuts
    the voice text the way [chunk_text] cuts one oversized sentence:
    its chunks are those of the inner loop of [chunk_text] on the words
    of the text with [max_words = 140]. *)
Theorem voice_chunks_as_windows script_body cta :
  voice_chunks script_body cta
  = emit_windows (split (script_body ++ lit " " ++ cta)) 140 [].
Proof.
  rewrite voice_chunks_windows.
  now rewrite emit_windows_ok by (try apply split_words; lia).
Qed.

(** X14 - The voice text is cut without loss.  The chunks hold the
    words of the script body followed by the words of the call to
    action, each chunk is trimmed and has from 1 to 140 words, and
    there are [ceil(w / 140)] chunks for [w] words. *)
Theorem voice_chunks_lossless script_body cta :
  exists cs,
    voice_chunks script_body cta = Ok cs
    /\ concat (map split cs) = split script_body ++ split cta
    /\ Forall (fun c => strip c = c /\ 1 <= len (split c) <= 140) cs
    /\ len cs = ceil_div (len (split script_body) + len (split cta)) 140.
Proof.
  rewrite voice_chunks_windows.
  set (words := split (script_body ++ lit " " ++ cta)).
  assert (Ew : words = split script_body ++ split cta)
    by (unfold words; apply split_app_ws; apply isspace_SPACE).
  pose proof (split_words (script_body ++ lit " " ++ cta)) as Hw.
  fold words in Hw.
  destruct (window_chunks words 140 ltac:(lia) Hw) as [Hok Hall].
  eexists. split; [reflexivity |]. split; [| split].
  - rewrite <- Ew. exact Hall.
  - eapply Forall_impl; [| exact Hok].
    intros c [Hwf Hlen]. split; [now apply wf_strip |].
    pose proof (wf_split_nonempty c Hwf) as Hne.
    destruct (split c); [congruence |]. unfold len in *. simpl in *. lia.
  - unfold len at 1. rewrite length_map.
    fold (len (windows words 140)).
    rewrite windows_count by lia. unfold ceil_div.
    now rewrite Ew, len_app.
Qed.

(** X15 - The batches of video identifiers.  [fetch_video_details]
    asks for the identifiers in batches that hold all of them, in
    order, each batch with at least 1 and at most 50 identifiers, in
    [ceil(n / 50)] requests for [n] identifiers. *)
Theorem video_batches_cover video_ids :
  exists batches,
    video_batches video_ids = Ok batches
    /\ concat batches = video_ids
    /\ Forall (fun b => 1 <= len b <= 50) batches
    /\ len batches = ceil_div (len video_ids) 50.
Proof.
  unfold video_batches. rewrite range_windows by lia.
  eexists. split; [reflexivity |]. split; [| split].
  - apply concat_windows. lia.
  - apply windows_sizes. lia.
  - apply windows_count. lia.
Qed.

(** ** slugify *)

Lemma slug_char_not_dash c : is_slug_char c = true -> (c =? DASH)%N = false.
Proof.
  intros H. apply N.eqb_neq. intros ->. discriminate.
Qed.

Lemma dash_not_slug_char : is_slug_char DASH = false.
Proof. reflexivity. Qed.

Lemma re_sub_nonslug_body : forall s m,
  body_ok m (re_sub_nonslug m s) = true.
Proof.
  induction s as [| c r IH]; intros m; [reflexivity |].
  simpl. destruct (is_slug_char c) eqn:Hc; simpl.
  - rewrite (slug_char_not_dash c Hc), Hc. apply IH.
  - destruct m; [apply IH |].
    simpl. apply IH.
Qed.

Lemma lstrip_dash_spec s :
  exists pre, s = pre ++ lstrip_dash s /\ all_dash pre
              /\ starts_dash (lstrip_dash s) = false.
Proof.
  induction s as [| c r (pre & E & Hpre & Hs)].
  - exists []. repeat split. constructor.
  - simpl. destruct (N.eqb_spec c DASH) as [-> | Hc].
    + exists (DASH :: pre). simpl. rewrite <- E.
      repeat split; [now constructor | assumption].
    + exists []. repeat split; [constructor |].
      simpl. now apply N.eqb_neq.
Qed.

Lemma ends_dash_cons p c r : r <> [] -> ends_dash p (c :: r) = ends_dash p r.
Proof. destruct r; [congruence | reflexivity]. Qed.

Lemma ends_dash_last : forall a p c, ends_dash p (a ++ [c]) = (c =? DASH)%N.
Proof.
  induction a as [| x a IH]; intros p c; [reflexivity |].
  simpl. apply IH.
Qed.

Lemma starts_dash_rev s : starts_dash (rev s) = ends_dash false s.
Proof.
  destruct s as [| c r]; [reflexivity |].
  rewrite <- (rev_involutive (c :: r)) at 2.
  destruct (rev (c :: r)) as [| x t] eqn:E.
  - apply (f_equal (@length char)) in E. rewrite length_rev in E.
    discriminate.
  - simpl rev. now rewrite ends_dash_last.
Qed.

Lemma rstrip_dash_spec s :
  exists post, s = rstrip_dash s ++ post /\ all_dash post
               /\ ends_dash false (rstrip_dash s) = false.
Proof.
  unfold rstrip_dash. destruct (lstrip_dash_spec (rev s)) as (pre & E & Hpre & Hs).
  exists (rev pre). repeat split.
  - rewrite <- rev_app_distr, <- E. now rewrite rev_involutive.
  - now apply Forall_rev.
  - rewrite <- starts_dash_rev. now rewrite rev_involutive.
Qed.

Lemma body_ok_app_l : forall a b p,
  body_ok p (a ++ b) = true -> body_ok p a = true.
Proof.
  induction a as [| c a IH]; intros b p H; [reflexivity |].
  simpl in *. destruct (c =? DASH)%N.
  - apply andb_true_iff in H as [H1 H2]. rewrite H1. simpl. now apply IH with b.
  - apply andb_true_iff in H as [H1 H2]. rewrite H1. simpl. now apply IH with b.
Qed.

Lemma body_ok_lstrip : forall s m,
  body_ok m s = true -> body_ok true (lstrip_dash s) = true.
Proof.
  induction s as [| c r IH]; intros m H; [reflexivity |].
  simpl in *. destruct (c =? DASH)%N eqn:Hc.
  - apply andb_true_iff in H as [_ H]. now apply IH with true.
  - simpl. now rewrite Hc.
Qed.

Lemma slug_body_split : forall s p,
  slug_body p s = body_ok p s && negb (ends_dash p s).
Proof.
  induction s as [| c r IH]; intros p; [reflexivity |].
  simpl. destruct (c =? DASH)%N.
  - rewrite IH. now rewrite andb_assoc.
  - rewrite IH. now rewrite andb_assoc.
Qed.

Lemma ends_dash_nonempty s p q : s <> [] -> ends_dash p s = ends_dash q s.
Proof. destruct s; [congruence | reflexivity]. Qed.

Lemma strip_dash_valid s m :
  body_ok m s = true -> strip_dash s <> [] ->
  valid_slug (strip_dash s) = true.
Proof.
  intros Hb Hne. unfold valid_slug.
  rewrite (proj2 (truthy_true _) Hne). simpl andb.
  rewrite slug_body_split.
  apply body_ok_lstrip in Hb. unfold strip_dash in *.
  destruct (rstrip_dash_spec (lstrip_dash s)) as (post & E & _ & He).
  rewrite E in Hb. apply body_ok_app_l in Hb. rewrite Hb.
  rewrite (ends_dash_nonempty _ true false Hne), He. reflexivity.
Qed.

Lemma lstrip_dash_id s : starts_dash s = false -> lstrip_dash s = s.
Proof. destruct s as [| c r]; simpl; [reflexivity | now intros ->]. Qed.

Lemma rstrip_dash_id s : ends_dash false s = false -> rstrip_dash s = s.
Proof.
  intros H. unfold rstrip_dash.
  rewrite lstrip_dash_id by now rewrite starts_dash_rev.
  apply rev_involutive.
Qed.

Lemma re_sub_nonslug_id : forall s p m,
  body_ok p s = true -> (m = true -> p = true) ->
  re_sub_nonslug m s = s.
Proof.
  induction s as [| c r IH]; intros p m H Hm; [reflexivity |].
  simpl in *. destruct (N.eqb_spec c DASH) as [-> | Hc].
  - apply andb_true_iff in H as [Hp H]. apply negb_true_iff in Hp.
    rewrite dash_not_slug_char. simpl.
    destruct m; [specialize (Hm eq_refl); congruence |].
    f_equal. now apply IH with true.
  - apply andb_true_iff in H as [Hs H]. rewrite Hs. simpl.
    f_equal. apply IH with false; [assumption | discriminate].
Qed.

(** A valid slug is a fixed point of the substitution and of the
    strip. *)
Lemma valid_slug_fixed s :
  valid_slug s = true ->
  re_sub_nonslug false s = s /\ strip_dash s = s /\ s <> [].
Proof.
  unfold valid_slug. intros H. apply andb_true_iff in H as [Ht H].
  apply truthy_true in Ht. rewrite slug_body_split in H.
  apply andb_true_iff in H as [Hb He]. apply negb_true_iff in He.
  split; [| split; [| assumption]].
  - apply re_sub_nonslug_id with true; [assumption | discriminate].
  - unfold strip_dash.
    assert (Hs : starts_dash s = false).
    { destruct s as [| c r]; [reflexivity |]. simpl in *.
      destruct (c =? DASH)%N; [discriminate | reflexivity]. }
    rewrite lstrip_dash_id by assumption.
    apply rstrip_dash_id.
    now rewrite (ends_dash_nonempty _ false true Ht).
Qed.

Lemma slugify_is_valid lower value : valid_slug (slugify lower value) = true.
Proof.
  unfold slugify.
  destruct (strip_dash (re_sub_nonslug false (lower value))) eqn:E;
    simpl truthy; cbv iota; [reflexivity |].
  rewrite <- E. apply strip_dash_valid with false.
  - apply re_sub_nonslug_body.
  - rewrite E. discriminate.
Qed.

Lemma slugify_fixed lower s :
  lower s = s -> valid_slug s = true -> slugify lower s = s.
Proof.
  intros Hl Hv. destruct (valid_slug_fixed s Hv) as (E1 & E2 & Hne).
  unfold slugify. rewrite Hl, E1, E2.
  now rewrite (proj2 (truthy_true _) Hne).
Qed.

Lemma ascii_lower_body : forall s p,
  body_ok p s = true -> ascii_lower s = s.
Proof.
  unfold ascii_lower.
  induction s as [| c r IH]; intros p H; [reflexivity |].
  simpl in *. destruct (N.eqb_spec c DASH) as [-> | Hc].
  - apply andb_true_iff in H as [_ H]. simpl. f_equal. now apply IH with true.
  - apply andb_true_iff in H as [Hs H].
    rewrite (IH false H). f_equal.
    unfold is_slug_char in Hs.
    destruct ((65 <=? c) && (c <=? 90))%N eqn:Hu; [| reflexivity].
    apply andb_true_iff in Hu as [H1 H2].
    apply N.leb_le in H1, H2.
    apply orb_true_iff in Hs as [Hs | Hs];
      apply andb_true_iff in Hs as [H3 H4];
      apply N.leb_le in H3, H4; lia.
Qed.

Lemma ascii_lower_slug s : valid_slug s = true -> ascii_lower s = s.
Proof.
  unfold valid_slug. intros H. apply andb_true_iff in H as [_ H].
  rewrite slug_body_split in H. apply andb_true_iff in H as [H _].
  now apply ascii_lower_body with true.
Qed.

Lemma body_ok_chars : forall s p,
  body_ok p s = true ->
  Forall (fun c => is_slug_char c = true \/ c = DASH) s.
Proof.
  induction s as [| c r IH]; intros p H; [constructor |].
  simpl in H. destruct (N.eqb_spec c DASH) as [-> | Hc];
    apply andb_true_iff in H as [H1 H2].
  - constructor; [now right | now apply IH with true].
  - constructor; [now left | now apply IH with false].
Qed.

Lemma re_sub_all_nonslug : forall s m,
  Forall (fun c => is_slug_char c = false) s ->
  re_sub_nonslug m s = if m then [] else if truthy s then [DASH] else [].
Proof.
  induction s as [| c r IH]; intros m H.
  - now destruct m.
  - inversion H as [| ? ? Hc Hr]; subst.
    simpl. rewrite Hc. simpl. rewrite !IH by assumption. now destruct m.
Qed.

(** X16 - [slugify] returns a valid slug.  Whatever the value and
    whatever [str.lower] does to it, the result is not empty, is made
    of the characters [a-z], [0-9] and [-], has no dash at either end
    and no two dashes in a row. *)
Theorem slugify_valid (lower : str -> str) value :
  let s := slugify lower value in
  valid_slug s = true
  /\ s <> []
  /\ Forall (fun c => is_slug_char c = true \/ c = DASH) s
  /\ starts_dash s = false /\ ends_dash false s = false.
Proof.
  intros s. pose proof (slugify_is_valid lower value) as Hv. fold s in Hv.
  split; [assumption |].
  unfold valid_slug in Hv. apply andb_true_iff in Hv as [Ht Hv].
  apply truthy_true in Ht. split; [assumption |].
  rewrite slug_body_split in Hv. apply andb_true_iff in Hv as [Hb He].
  apply negb_true_iff in He. split; [| split].
  - now apply body_ok_chars with true.
  - destruct s as [| c r]; [reflexivity |]. simpl in *.
    destruct (c =? DASH)%N; [discriminate | reflexivity].
  - now rewrite (ends_dash_nonempty _ false true Ht).
Qed.

(** X17 - [slugify] is idempotent.  [str.lower] leaves the strings
    made of [a-z], [0-9] and [-] as they are; so every valid slug is
    a fixed point of [slugify], and the slug of a slug is that slug. *)
Theorem slugify_idempotent (lower : str -> str) value :
  (forall s, valid_slug s = true -> lower s = s) ->
  slugify lower (slugify lower value) = slugify lower value
  /\ forall s, valid_slug s = true -> slugify lower s = s.
Proof.
  intros Hl.
  assert (Hf : forall s, valid_slug s = true -> slugify lower s = s)
    by (intros s Hs; apply slugify_fixed; auto).
  split; [| exact Hf]. apply Hf, slugify_is_valid.
Qed.

Lemma slugify_idempotent_witness :
  slugify ascii_lower (slugify ascii_lower (lit "My Channel -- 2024!"))
  = slugify ascii_lower (lit "My Channel -- 2024!")
  /\ forall s, valid_slug s = true -> slugify ascii_lower s = s.
Proof.
  apply (slugify_idempotent ascii_lower (lit "My Channel -- 2024!")).
  exact ascii_lower_slug.
Defined.

(** X18 - The fallback of [slugify].  A value whose lower case holds
    none of [a-z] and [0-9] has the slug ["channel"], the same for all
    such values. *)
Theorem slugify_fallback (lower : str -> str) value :
  Forall (fun c => is_slug_char c = false) (lower value) ->
  slugify lower value = lit "channel".
Proof.
  intros H. unfold slugify. rewrite re_sub_all_nonslug by assumption.
  destruct (truthy (lower value)); reflexivity.
Qed.

Lemma slugify_fallback_witness :
  slugify ascii_lower (lit "?? -- !!") = lit "channel".
Proof.
  apply (slugify_fallback ascii_lower (lit "?? -- !!")).
  repeat constructor.
Defined.

Example slugify_title :
  slugify ascii_lower (lit "My Channel -- 2024!") = lit "my-channel-2024".
Proof. reflexivity. Qed.

(** * Greedy packing *)

Lemma flush_chunk_is_join cur :
  Forall wf cur -> cur <> [] -> strip (join_sp cur) = join_sp cur.
Proof.
  intros H Hne. destruct (flushed_chunk cur H Hne) as (E & _).
  rewrite E. symmetry. now apply join_wf.
Qed.

Lemma bind_Ok {A B} (a : A) (f : A -> result B) : bind (Ok a) f = f a.
Proof. reflexivity. Qed.

Lemma flush_chunks C cur n :
  Forall wf cur -> cur <> [] ->
  chunks (flush (mkState C cur n)) = C ++ [join_sp cur].
Proof.
  intros H Hne. unfold flush. simpl.
  rewrite (proj2 (truthy_true _) Hne).
  now rewrite flush_chunk_is_join.
Qed.

(** From any accumulator that fits, the rest of the loop and the last
    flush cut the accumulator and the sentences to come into greedy
    blocks, the first of which starts with the accumulator. *)
Lemma pack_blocks min_words max_words :
  1 <= max_words ->
  forall ss cur C,
    Forall wf cur -> len (words_in cur) <= max_words ->
    Forall wf ss -> Forall (fun s => len (split s) <= max_words) ss ->
    exists blocks,
      (st <- run_loop min_words max_words
               (mkState C cur (len (words_in cur))) ss ;;
       Ok (chunks (if truthy (current st) then flush st else st)))
      = Ok (C ++ map join_sp blocks)
      /\ concat blocks = cur ++ ss
      /\ Forall (fun b => b <> [] /\ len (words_in b) <= max_words) blocks
      /\ greedy max_words blocks
      /\ (cur <> [] -> exists b rest, blocks = (cur ++ b) :: rest).
Proof.
  intros Hm. induction ss as [| s ss IH]; intros cur C Hcur Hlen Hss Hsmall.
  - simpl run_loop. simpl bind. simpl current.
    destruct (truthy cur) eqn:Ht.
    + apply truthy_true in Ht. exists [cur].
      unfold flush. simpl chunks. simpl current.
      rewrite (proj2 (truthy_true _) Ht).
      rewrite flush_chunk_is_join by assumption.
      split; [reflexivity |].
      split; [simpl; now rewrite app_nil_r |].
      split; [constructor; [now split | constructor] |].
      split; [exact I |].
      intros _. exists [], []. now rewrite app_nil_r.
    + apply truthy_false in Ht. subst cur. exists [].
      simpl. rewrite app_nil_r.
      split; [reflexivity | split; [reflexivity |]].
      split; [constructor | split; [exact I | congruence]].
  - inversion Hss as [| ? ? Hs Hss']; subst.
    inversion Hsmall as [| ? ? Hsm Hsmall']; subst.
    pose proof (len_nonneg (words_in cur)) as H0.
    destruct (Z_gt_le_dec (len (words_in cur) + len (split s)) max_words)
      as [Hover | Hfit].
    + assert (Hne : cur <> []).
      { intros ->. change (len (words_in [])) with 0 in Hover. lia. }
      simpl run_loop. rewrite step_overflow by (simpl; lia).
      rewrite bind_Ok, flush_chunks by assumption.
      destruct (IH [s] (C ++ [join_sp cur])) as (blocks & E & Hc & Hok & Hg & Hp).
      * now constructor.
      * rewrite words_in_one. assumption.
      * assumption.
      * assumption.
      * rewrite words_in_one in E.
        destruct (Hp ltac:(discriminate)) as (b & rest & ->).
        exists (cur :: ([s] ++ b) :: rest). split; [| split; [| split; [| split]]].
        -- rewrite E. simpl map. now rewrite <- app_assoc.
        -- simpl concat. simpl concat in Hc. simpl app in Hc.
           now rewrite Hc.
        -- constructor; [now split | assumption].
        -- split; [lia | assumption].
        -- intros _. exists [], (([s] ++ b) :: rest). now rewrite app_nil_r.
    + simpl run_loop. rewrite step_fits by (simpl; lia).
      simpl bind. simpl chunks. simpl current. simpl word_count.
      destruct (IH (cur ++ [s]) C) as (blocks & E & Hc & Hok & Hg & Hp).
      * apply Forall_app. split; [assumption | now constructor].
      * rewrite words_in_app, words_in_one, len_app. lia.
      * assumption.
      * assumption.
      * rewrite words_in_app, words_in_one, len_app in E.
        exists blocks. split; [assumption |].
        split; [now rewrite Hc, <- app_assoc |].
        split; [assumption | split; [assumption |]].
        intros _. destruct (Hp ltac:(now destruct cur)) as (b & rest & ->).
        exists ([s] ++ b), rest. now rewrite <- app_assoc.
Qed.

(** X19 - The packing is greedy.  With [max_words >= 1] and no
    sentence of more than [max_words] words, the chunks are the
    sentences cut into consecutive blocks, each block joined by single
    spaces; every block holds at least one sentence and at most
    [max_words] words, and the first sentence of the next block would
    not have fitted: with it the block would hold more than [max_words]
    words. *)
Theorem packing_is_greedy text min_words max_words :
  1 <= max_words ->
  Forall (fun s => len (split s) <= max_words) (split_sentences text) ->
  exists blocks,
    chunk_text text min_words max_words = Ok (map join_sp blocks)
    /\ concat blocks = split_sentences text
    /\ Forall (fun b => b <> [] /\ len (words_in b) <= max_words) blocks
    /\ greedy max_words blocks.
Proof.
  intros Hm Hsmall.
  destruct (pack_blocks min_words max_words Hm (split_sentences text) [] [])
    as (blocks & E & Hc & Hok & Hg & _).
  - constructor.
  - unfold words_in, len. simpl. lia.
  - apply sentences_wf.
  - assumption.
  - exists blocks. split; [exact E |]. now repeat split.
Qed.

Lemma packing_is_greedy_witness :
  exists blocks,
    chunk_text (lit "a b. c d. e. f.") 1 5 = Ok (map join_sp blocks)
    /\ concat blocks = split_sentences (lit "a b. c d. e. f.")
    /\ Forall (fun b => b <> [] /\ len (words_in b) <= 5) blocks
    /\ greedy 5 blocks.
Proof.
  apply (packing_is_greedy (lit "a b. c d. e. f.") 1 5); [lia |].
  vm_compute. repeat constructor; discriminate.
Defined.

(** * parse_duration *)

Lemma span_digits_run nd ds c rest :
  Forall (fun x => is_digit nd x = true) ds -> is_digit nd c = false ->
  span_digits nd (ds ++ c :: rest) = (ds, c :: rest).
Proof.
  intros Hd Hc. induction Hd as [| x ds Hx _ IH].
  - simpl. now rewrite Hc.
  - simpl. now rewrite Hx, IH.
Qed.

Lemma opt_group_miss nd X ds c rest :
  Forall (fun x => is_digit nd x = true) ds -> is_digit nd c = false ->
  c <> X ->
  opt_group nd X (ds ++ c :: rest) = (None, ds ++ c :: rest).
Proof.
  intros Hd Hc Hx. unfold opt_group. rewrite span_digits_run by assumption.
  destruct ds; [reflexivity |].
  now rewrite (proj2 (N.eqb_neq c X) Hx).
Qed.

Lemma opt_group_hit nd X ds rest :
  Forall (fun x => is_digit nd x = true) ds -> ds <> [] ->
  is_digit nd X = false ->
  opt_group nd X (ds ++ X :: rest) = (Some ds, rest).
Proof.
  intros Hd Hne Hx. unfold opt_group. rewrite span_digits_run by assumption.
  destruct ds; [congruence |]. now rewrite N.eqb_refl.
Qed.

Lemma uint_digits d :
  Forall (fun c => (48 <=? c)%N && (c <=? 57)%N = true)
         (lit (DecimalString.NilEmpty.string_of_uint d)).
Proof.
  induction d; simpl; constructor; (reflexivity || assumption).
Qed.

Lemma digits_shape nd n :
  Forall (fun c => is_digit nd c = true) (digits n) /\ digits n <> [].
Proof.
  unfold digits. set (d := N.to_uint (Z.to_N n)).
  assert (Hnil : d <> Decimal.Nil).
  { unfold d. destruct (Z.to_N n); simpl; [discriminate |].
    apply DecimalPos.Unsigned.to_uint_nonnil. }
  replace (DecimalString.NilZero.string_of_uint d)
    with (DecimalString.NilEmpty.string_of_uint d)
    by (destruct d; [congruence | reflexivity ..]).
  split.
  - eapply Forall_impl; [| apply uint_digits].
    intros c Hc. unfold is_digit.
    apply andb_true_iff in Hc as [H1 H2]. apply N.leb_le in H1, H2.
    destruct (N.ltb_spec c 128); [| lia].
    apply andb_true_iff. split; now apply N.leb_le.
  - destruct d; try congruence; discriminate.
Qed.

Lemma ascii_int_digits n : 0 <= n -> ascii_int (digits n) = Ok n.
Proof.
  intros Hn. unfold ascii_int. rewrite value_digits by assumption.
  f_equal. lia.
Qed.

(** X20 - Hours are not read.  When [PT] is followed by digits and
    then by a character that is neither [M] nor [S] and no digit, as
    the [H] of [PT1H2M3S], [parse_duration] returns 0, whatever
    follows. *)
Theorem hours_are_not_read nd int ds c rest :
  Forall (fun x => is_digit nd x = true) ds ->
  is_digit nd c = false -> c <> 77%N -> c <> 83%N ->
  parse_duration nd int (Some (lit "PT" ++ ds ++ c :: rest)) = Ok 0.
Proof.
  intros Hd Hc HM HS. unfold parse_duration.
  change (lit "PT" ++ ds ++ c :: rest)
    with (80%N :: 84%N :: (ds ++ c :: rest)).
  cbv iota beta.
  rewrite opt_group_miss by assumption.
  rewrite opt_group_miss by assumption.
  reflexivity.
Qed.

Lemma hours_are_not_read_witness :
  parse_duration (fun _ => false) ascii_int (Some (lit "PT1H2M3S")) = Ok 0.
Proof.
  apply (hours_are_not_read (fun _ => false) ascii_int (lit "1") 72%N
           (lit "2M3S")).
  - repeat constructor.
  - reflexivity.
  - discriminate.
  - discriminate.
Defined.

(** X21 - Minutes and seconds are read back.  For integers
    [m >= 0] and [s >= 0] whose decimal strings [int] converts back,
    the duration [PT{m}M{s}S] is [60 * m + s] seconds. *)
Theorem parse_duration_round_trip nd int m s :
  0 <= m -> 0 <= s ->
  int (digits m) = Ok m -> int (digits s) = Ok s ->
  parse_duration nd int
    (Some (lit "PT" ++ digits m ++ lit "M" ++ digits s ++ lit "S"))
  = Ok (m * 60 + s).
Proof.
  intros Hm Hs Em Es. unfold parse_duration.
  change (lit "PT" ++ digits m ++ lit "M" ++ digits s ++ lit "S")
    with (80%N :: 84%N :: (digits m ++ 77%N :: (digits s ++ 83%N :: []))).
  cbv iota beta.
  destruct (digits_shape nd m) as [Hdm Hnm].
  destruct (digits_shape nd s) as [Hds Hns].
  rewrite opt_group_hit by (assumption || reflexivity).
  rewrite opt_group_hit by (assumption || reflexivity).
  simpl int_or_0. rewrite Em, Es. reflexivity.
Qed.

Lemma parse_duration_round_trip_witness :
  parse_duration (fun _ => false) ascii_int
    (Some (lit "PT" ++ digits 15 ++ lit "M" ++ digits 33 ++ lit "S"))
  = Ok (15 * 60 + 33).
Proof.
  apply (parse_duration_round_trip (fun _ => false) ascii_int 15 33);
    [lia | lia | reflexivity | reflexivity].
Defined.

Example parse_duration_examples :
  parse_duration (fun _ => false) ascii_int (Some (lit "PT45S")) = Ok 45
  /\ parse_duration (fun _ => false) ascii_int (Some (lit "PT2M")) = Ok 120
  /\ parse_duration (fun _ => false) ascii_int (Some (lit "P1DT2M")) = Ok 0
  /\ parse_duration (fun _ => false) ascii_int None = Ok 0.
Proof. repeat split. Qed.
